(** * ggpack: the container reader of [reader.go]

    A shallow embedding of the final revision of the reader
    (package [ggpack]: [DecodeXOR], [ReadPack], [readOffsets], [readHash],
    [readValue], [readString] and [Value.Find]) together with the
    properties of the decoder that its description states.

    Conventions of the embedding.
    - A Go [byte] is a [Z] in the range 0..255, a [[]byte] is a [list Z].
      Conversions [byte(x)], [uint32(x)] and [int32(x)] are written out as
      wrap-arounds ([to_byte], [to_uint32], [to_int32]).  Go's [int] is
      the 64-bit one, so lengths and products of indices never wrap.
    - A Go [string] is its byte sequence, again a [list Z].
    - A call that returns [(T, error)] returns an [outcome]: [Ok], [Err]
      with the error, or [Panic] where the Go runtime panics instead of
      returning.
    - Loops and the recursion of the decoder are structurally recursive
      on a fuel counter.  [OutOfFuel] is the artefact of that; the
      properties below show that the fuel the entry points supply is
      always enough ([pair_pass_enough], [search_loop_enough],
      [readOffsets_fuel], [decoder_adequate], [ReadPack_returns]). *)

From Stdlib Require Import String Ascii Floats.
From Stdlib Require Import ZArith List Lia Bool.
From Stdlib Require Import Sorting.Sorted Sorting.Permutation.
Import ListNotations.

Local Open Scope Z_scope.

(** ** Bytes and machine integers *)

Definition bytes := list Z.

Definition is_byte (b : Z) : bool := (0 <=? b) && (b <? 256).

Definition all_bytes (buf : bytes) : bool := forallb is_byte buf.

Definition to_byte (z : Z) : Z := z mod 256.

Definition to_uint32 (z : Z) : Z := z mod 4294967296.

Definition to_int32 (z : Z) : Z :=
  let u := z mod 4294967296 in
  if u <? 2147483648 then u else u - 4294967296.

Definition len {A : Type} (l : list A) : Z := Z.of_nat (length l).

(** [buf[i]] for an index that the caller has checked. *)
Definition at_index (buf : bytes) (i : Z) : Z := nth (Z.to_nat i) buf 0.

(** [buf[i:]] for an index that the caller has checked. *)
Definition slice_from (buf : bytes) (i : Z) : bytes := skipn (Z.to_nat i) buf.

(** [binary.LittleEndian.Uint32(b)]; every caller checks [len b >= 4]. *)
Definition Uint32 (b : bytes) : Z :=
  Z.lor (Z.lor (Z.lor (at_index b 0) (Z.shiftl (at_index b 1) 8))
               (Z.shiftl (at_index b 2) 16))
        (Z.shiftl (at_index b 3) 24).

(** The bytes of a literal, to write Go strings in examples. *)
Definition str (s : string) : bytes :=
  map (fun c => Z.of_N (N_of_ascii c)) (list_ascii_of_string s).

(** ** The cipher: [DecodeXOR] *)

Definition magicBytes : bytes :=
  [ 0x4f; 0xd0; 0xa0; 0xac;
    0x4a; 0x5b; 0xb9; 0xe5;
    0x93; 0x79; 0x45; 0xa5;
    0xc1; 0xcb; 0x31; 0x93 ].

Definition xor_code (method : Z) : Z :=
  if negb (method =? 2) then 0x6d else 0xad.

(** The first loop of [DecodeXOR], from index [i] with rolling byte [prev]. *)
Fixpoint xor_pass (code i prev : Z) (buf : bytes) : bytes :=
  match buf with
  | [] => []
  | v :: rest =>
      let x := Z.lxor (Z.lxor v (at_index magicBytes (Z.land i 0xf)))
                      (to_byte (i * code)) in
      Z.lxor x prev :: xor_pass code (i + 1) x rest
  end.

(** [buf[i] ^= c] *)
Fixpoint xor_at (c : Z) (i : nat) (buf : bytes) : bytes :=
  match buf, i with
  | [], _ => []
  | v :: rest, O => Z.lxor v c :: rest
  | v :: rest, S i' => v :: xor_at c i' rest
  end.

(** The second loop of [DecodeXOR]: [for i := 5; i+1 < len(buf); i += 16]. *)
Fixpoint pair_pass (fuel : nat) (i : Z) (buf : bytes) : bytes :=
  match fuel with
  | O => buf
  | S fuel' =>
      if i + 1 <? len buf
      then pair_pass fuel' (i + 16)
             (xor_at 0x0d (Z.to_nat (i + 1)) (xor_at 0x0d (Z.to_nat i) buf))
      else buf
  end.

Definition DecodeXOR (method : Z) (buf : bytes) : bytes :=
  let buf1 := xor_pass (xor_code method) 0 (to_byte (len buf)) buf in
  if negb (method =? 0) then pair_pass (length buf) 5 buf1 else buf1.

(** ** Results of fallible calls *)

Inductive error : Type :=
| errTooShort                       (* "buffer too short" *)
| errUnsupportedVersion             (* "unsuported package version" *)
| errNonHash                        (* "trying to parse non-hash" *)
| errUnterminatedHash               (* "unterminated hash" *)
| errUnterminatedArray              (* "unterminated array" *)
| errInvalidInteger (num : bytes)   (* "invalid integer: %s" *)
| errInvalidDouble (num : bytes)    (* "invalid double: %s" *)
| errUnsupportedValue (typ : Z)     (* "unsupported value: %s" *)
| errInvalidOffsetIndex (idx : Z)   (* "invalid offset index: %d" *)
| errInvalidOffset (ofs : Z)        (* "invalid offset: %d" *)
| errPloOutOfRange                  (* "ggpack plo out of range" *)
| errCannotFindPlo                  (* "ggpack cannot find plo" *)
| errEOF                            (* io.EOF *)
| errUnexpectedEOF                  (* io.ErrUnexpectedEOF *)
| errSeek.                          (* Seek to a negative position *)

Inductive panic : Type :=
| makesliceLenOutOfRange            (* make([]T, n) with n < 0 *)
| makesliceCapOutOfRange.           (* make([]T, 0, n) with n < 0 *)

Inductive outcome (A : Type) : Type :=
| Ok (a : A)
| Err (e : error)
| Panic (p : panic)
| OutOfFuel.

Arguments Ok {A} a.
Arguments Err {A} e.
Arguments Panic {A} p.
Arguments OutOfFuel {A}.

Definition bind {A B : Type} (m : outcome A) (k : A -> outcome B) : outcome B :=
  match m with
  | Ok a => k a
  | Err e => Err e
  | Panic p => Panic p
  | OutOfFuel => OutOfFuel
  end.

Notation "x <- m ;; k" := (bind m (fun x => k))
  (at level 61, m at next level, right associativity).
Notation "' p <- m ;; k" := (bind m (fun p => k))
  (at level 61, p pattern, m at next level, right associativity).

(** ** The byte source: a file read through [io.ReadSeeker] *)

(** [io.ReadFull] of [n] bytes at position [pos] of the file. *)
Definition ReadFull (file : bytes) (pos n : Z) : outcome bytes :=
  if n =? 0 then Ok []
  else if len file <=? pos then Err errEOF
  else if len file - pos <? n then Err errUnexpectedEOF
  else Ok (firstn (Z.to_nat n) (slice_from file pos)).

(** [binary.Read(r, binary.LittleEndian, &x)] for an [int32] at [pos]. *)
Definition ReadInt32 (file : bytes) (pos : Z) : outcome Z :=
  b <- ReadFull file pos 4 ;; Ok (to_int32 (Uint32 b)).

(** [r.Seek(offset, io.SeekStart)] *)
Definition Seek (offset : Z) : outcome Z :=
  if offset <? 0 then Err errSeek else Ok offset.

(** ** The method prober: the loop of [ReadPack] *)

Definition signature : Z := 0x04030201.

(** [for r.method = 3; r.method >= 0; r.method--]: [n] is [r.method + 1]. *)
Fixpoint probe (file : bytes) (offset size : Z) (n : nat) : outcome (Z * bytes) :=
  match n with
  | O => Err errUnsupportedVersion
  | S n' =>
      let method := Z.of_nat n' in
      pos <- Seek offset ;;
      raw <- ReadFull file pos size ;;
      let buf := DecodeXOR method raw in
      if len buf <? 4 then Err errTooShort
      else if Uint32 buf =? signature then Ok (method, buf)
      else probe file offset size n'
  end.


(** ** The offset table: [readOffsets] *)

(** [for pos := plo + 1; int(pos+4) < len(buf); pos += 4]; [pos] is a
    [uint32]. *)
Fixpoint offsets_loop (fuel : nat) (pos : Z) (buf : bytes) (offsets : list Z)
  : outcome (list Z) :=
  match fuel with
  | O => OutOfFuel
  | S fuel' =>
      if to_uint32 (pos + 4) <? len buf then
        let offset := Uint32 (slice_from buf pos) in
        if offset =? 0xffffffff then Ok offsets
        else offsets_loop fuel' (to_uint32 (pos + 4)) buf
               (offsets ++ [to_int32 offset])
      else Ok offsets
  end.

Definition readOffsets (buf : bytes) : outcome (list Z) :=
  if len buf <? 12 then Err errTooShort
  else
    let plo := Uint32 (slice_from buf 8) in
    if (plo <? 12) || (len buf - 4 <=? plo) then Err errPloOutOfRange
    else if negb (at_index buf plo =? 7) then Err errCannotFindPlo
    else offsets_loop (S (length buf)) (to_uint32 (plo + 1)) buf [].

(** The offset table as its description reads it, to compare with
    [offsets_loop]: entries of four bytes from [pos] on, up to the
    sentinel, or until fewer than four bytes remain. *)
Fixpoint offsets_as_described (fuel : nat) (pos : Z) (buf : bytes) : list Z :=
  match fuel with
  | O => []
  | S fuel' =>
      if len buf - pos <? 4 then []
      else
        let offset := Uint32 (slice_from buf pos) in
        if offset =? 0xffffffff then []
        else to_int32 offset :: offsets_as_described fuel' (pos + 4) buf
  end.

(** ** String resolution: [readString] *)

(** [for len(buf) > end && buf[end] != 0 { end++ }; buf[:end]] *)
Fixpoint until_zero (buf : bytes) : bytes :=
  match buf with
  | [] => []
  | b :: rest => if negb (b =? 0) then b :: until_zero rest else []
  end.

Definition readString (offsets : list Z) (buf : bytes) (offset : Z)
  : outcome bytes :=
  if (offset <? 0) || (len offsets <=? offset)
  then Err (errInvalidOffsetIndex offset)
  else
    let ofs := nth (Z.to_nat offset) offsets 0 in
    if (ofs <? 0) || (len buf <=? ofs) then Err (errInvalidOffset ofs)
    else Ok (until_zero (slice_from buf ofs)).

(** ** Cursor reads: [readByte] and [readInt] *)

Definition readByte (buf : bytes) : outcome (Z * bytes) :=
  match buf with
  | [] => Err errTooShort
  | x :: rest => Ok (x, rest)
  end.

Definition readInt (buf : bytes) : outcome (Z * bytes) :=
  if len buf <? 4 then Err errTooShort
  else Ok (to_int32 (Uint32 buf), slice_from buf 4).

(** ** Go strings: comparison, [strings.ToLower], [strconv.ParseInt] *)

(** [a < b] on strings: byte-wise, a proper prefix is smaller. *)
Fixpoint str_ltb (a b : bytes) : bool :=
  match a, b with
  | _, [] => false
  | [], _ :: _ => true
  | x :: a', y :: b' =>
      if x <? y then true else if y <? x then false else str_ltb a' b'
  end.

(** [a == b] on strings. *)
Fixpoint str_eqb (a b : bytes) : bool :=
  match a, b with
  | [], [] => true
  | x :: a', y :: b' => (x =? y) && str_eqb a' b'
  | _, _ => false
  end.

Definition lower_ascii (c : Z) : Z :=
  if (65 <=? c) && (c <=? 90) then c + 32 else c.

Definition is_ascii (s : bytes) : bool := forallb (fun c => c <? 128) s.

Section Lower.

(** [strings.Map(unicode.ToLower, s)], the path [strings.ToLower] takes
    for a string with a byte above 0x7f; it rests on the Unicode tables
    of the Go library. *)
Variable unicodeToLower : bytes -> bytes.

Definition ToLower (s : bytes) : bytes :=
  if is_ascii s then map lower_ascii s else unicodeToLower s.

End Lower.

(** The digit loop of [strconv.ParseUint(s, 10, 64)]; [None] is a syntax
    or a range error. *)
Fixpoint parse_digits (s : bytes) (n : Z) : option Z :=
  match s with
  | [] => Some n
  | c :: rest =>
      if (48 <=? c) && (c <=? 57) then
        if 18446744073709551615 / 10 + 1 <=? n then None
        else
          let n1 := n * 10 + (c - 48) in
          if 18446744073709551615 <? n1 then None else parse_digits rest n1
      else None
  end.

Definition ParseUint (s : bytes) : option Z :=
  match s with
  | [] => None
  | _ => parse_digits s 0
  end.

(** [strconv.ParseInt(s, 10, 64)]; [None] stands for a non-nil error, the
    only thing the reader looks at. *)
Definition ParseInt (s : bytes) : option Z :=
  match s with
  | [] => None
  | c :: rest =>
      let neg := c =? 45 in
      let s' := if (c =? 43) || (c =? 45) then rest else s in
      match ParseUint s' with
      | None => None
      | Some un =>
          if negb neg && (9223372036854775808 <=? un) then None
          else if neg && (9223372036854775808 <? un) then None
          else Some (if neg then - un else un)
      end
  end.




(** ** Values *)

Definition NullType : Z := 1.
Definition HashType : Z := 2.
Definition ArrayType : Z := 3.
Definition StringType : Z := 4.
Definition IntegerType : Z := 5.
Definition DoubleType : Z := 6.

#[local] Set Warnings "-register-all".

Inductive Value : Type :=
| VNull
| VHash (hash : list (bytes * Value))
| VArray (array : list Value)
| VString (s : bytes)
| VInteger (integer : Z)
| VDouble (double : float).

Definition HashEntries := list (bytes * Value).

Definition Type_ (v : Value) : Z :=
  match v with
  | VNull => NullType
  | VHash _ => HashType
  | VArray _ => ArrayType
  | VString _ => StringType
  | VInteger _ => IntegerType
  | VDouble _ => DoubleType
  end.

(** [sort.Slice(value.hash, func(i, j) { return hash[i].Key < hash[j].Key })].
    The library promises a permutation ordered by the comparison and no
    more (the sort is not stable); an insertion sort stands for it. *)
Fixpoint insert_entry (e : bytes * Value) (hash : HashEntries) : HashEntries :=
  match hash with
  | [] => [e]
  | e' :: rest =>
      if str_ltb (fst e) (fst e') then e :: hash
      else e' :: insert_entry e rest
  end.

Fixpoint sortSlice (hash : HashEntries) : HashEntries :=
  match hash with
  | [] => []
  | e :: rest => insert_entry e (sortSlice rest)
  end.

(** The order [sort.Slice] leaves a hash in: each key is at most the keys
    after it. *)
Definition key_le (e1 e2 : bytes * Value) : Prop :=
  str_ltb (fst e2) (fst e1) = false.

Definition key_sorted (hash : HashEntries) : Prop := StronglySorted key_le hash.

(** A string with an ASCII capital letter. *)
Definition has_upper (s : bytes) : bool :=
  existsb (fun c => (65 <=? c) && (c <=? 90)) s.

(** ** The value decoder: [readHash] and [readValue] *)

Section Decoder.

(** [strconv.ParseFloat(num, 64)] of the Go library; [None] stands for a
    non-nil error. *)
Variable ParseFloat : bytes -> option float.

(** [r.offsets] *)
Variable offsets : list Z.

Fixpoint readValue (fuel : nat) (buf orig : bytes) {struct fuel}
  : outcome (Value * bytes) :=
  match fuel with
  | O => OutOfFuel
  | S fuel' =>
      match buf with
      | [] => Err errTooShort
      | typ :: rest =>
          if typ =? NullType then Ok (VNull, rest)
          else if typ =? HashType then readHash fuel' buf orig
          else if typ =? ArrayType then
            '(numEntries, buf1) <- readInt rest ;;
            if numEntries <? 0 then Panic makesliceCapOutOfRange
            else
              '(array, buf2) <- readArrayEntries fuel' 0 numEntries buf1 orig [] ;;
              '(t, buf3) <- readByte buf2 ;;
              if negb (t =? ArrayType) then Err errUnterminatedArray
              else Ok (VArray array, buf3)
          else if typ =? StringType then
            '(ofs, buf1) <- readInt rest ;;
            s <- readString offsets orig ofs ;;
            Ok (VString s, buf1)
          else if (typ =? DoubleType) || (typ =? IntegerType) then
            '(ofs, buf1) <- readInt rest ;;
            num <- readString offsets orig ofs ;;
            if typ =? IntegerType then
              match ParseInt num with
              | Some i => Ok (VInteger i, buf1)
              | None => Err (errInvalidInteger num)
              end
            else
              match ParseFloat num with
              | Some d => Ok (VDouble d, buf1)
              | None => Err (errInvalidDouble num)
              end
          else Err (errUnsupportedValue typ)
      end
  end

with readHash (fuel : nat) (buf orig : bytes) {struct fuel}
  : outcome (Value * bytes) :=
  match fuel with
  | O => OutOfFuel
  | S fuel' =>
      '(t, buf1) <- readByte buf ;;
      if negb (t =? HashType) then Err errNonHash
      else
        '(numEntries, buf2) <- readInt buf1 ;;
        if numEntries =? 0 then Err errTooShort
        else if numEntries <? 0 then Panic makesliceCapOutOfRange
        else
          '(hash, buf3) <- readHashEntries fuel' 0 numEntries buf2 orig [] ;;
          '(t', buf4) <- readByte buf3 ;;
          if negb (t' =? HashType) then Err errUnterminatedHash
          else Ok (VHash (sortSlice hash), buf4)
  end

(** [for i := int32(0); i < numEntries; i++] of [readHash] *)
with readHashEntries (fuel : nat) (i numEntries : Z) (buf orig : bytes)
       (hash : HashEntries) {struct fuel} : outcome (HashEntries * bytes) :=
  if i <? numEntries then
    match fuel with
    | O => OutOfFuel
    | S fuel' =>
        '(offset, buf1) <- readInt buf ;;
        key <- readString offsets orig offset ;;
        '(entry, buf2) <- readValue fuel' buf1 orig ;;
        readHashEntries fuel' (i + 1) numEntries buf2 orig
          (hash ++ [(key, entry)])
    end
  else Ok (hash, buf)

(** [for i := int32(0); i < numEntries; i++] of the array case *)
with readArrayEntries (fuel : nat) (i numEntries : Z) (buf orig : bytes)
       (array : list Value) {struct fuel} : outcome (list Value * bytes) :=
  if i <? numEntries then
    match fuel with
    | O => OutOfFuel
    | S fuel' =>
        '(value, buf1) <- readValue fuel' buf orig ;;
        readArrayEntries fuel' (i + 1) numEntries buf1 orig (array ++ [value])
    end
  else Ok (array, buf).

End Decoder.

(** Fuel that is enough for a buffer: two units per byte and three more. *)
Definition fuel_for (buf : bytes) : nat := S (S (S (2 * length buf))).

(** ** The reader: [ReadPack] *)

Record Reader : Type := mkReader {
  method : Z;
  offsets : list Z;
  entries : Value
}.

Section Pack.

Variable ParseFloat : bytes -> option float.

(** The file is read from its start. *)
Definition ReadPack (file : bytes) : outcome Reader :=
  offset <- ReadInt32 file 0 ;;
  size <- ReadInt32 file 4 ;;
  if size <? 0 then Panic makesliceLenOutOfRange
  else
    '(method, buf) <- probe file offset size 4 ;;
    offsets <- readOffsets buf ;;
    let slice := slice_from buf 12 in
    '(entries, _) <- readHash ParseFloat offsets (fuel_for slice) slice buf ;;
    Ok (mkReader method offsets entries).

End Pack.

(** ** Lookup: [sort.Search] and [Value.Find] *)

(** The loop of [sort.Search(n, f)] on the interval [i, j). *)
Fixpoint search_loop (fuel : nat) (f : Z -> bool) (i j : Z) : Z :=
  match fuel with
  | O => i
  | S fuel' =>
      if i <? j then
        let h := Z.shiftr (i + j) 1 in
        if negb (f h) then search_loop fuel' f (h + 1) j
        else search_loop fuel' f i h
      else i
  end.

Definition Search (n : Z) (f : Z -> bool) : Z :=
  search_loop (Z.to_nat n) f 0 n.

(** [hash[i].Key] and [hash[i].Value] for an index in range. *)
Definition key_at (hash : HashEntries) (i : Z) : bytes :=
  match nth_error hash (Z.to_nat i) with
  | Some e => fst e
  | None => []
  end.

Definition value_at (hash : HashEntries) (i : Z) : option Value :=
  match nth_error hash (Z.to_nat i) with
  | Some e => Some (snd e)
  | None => None
  end.

Section Lookup.

Variable unicodeToLower : bytes -> bytes.

(** The receiver is a pointer: [None] is [nil], and so is the result
    when nothing is found. *)
Definition Find (v : option Value) (name : bytes) : option Value :=
  match v with
  | Some (VHash hash) =>
      let idx := Search (len hash)
                   (fun i => negb (str_ltb (key_at hash i) name)) in
      if (idx <? len hash)
         && str_eqb name (ToLower unicodeToLower (key_at hash idx))
      then value_at hash idx
      else None
  | _ => None
  end.

End Lookup.

(** ** The cipher, byte by byte *)

(** The byte [x] that the first loop of [DecodeXOR] computes at index
    [j]: the input byte with the magic byte and the multiplier byte. *)
Definition keyed (method : Z) (buf : bytes) (j : Z) : Z :=
  Z.lxor (Z.lxor (at_index buf j) (at_index magicBytes (Z.land j 0xf)))
         (to_byte (j * xor_code method)).

(** The indices that the second loop, started at [i], changes in a buffer
    of length [L]: the first byte of each stride of 16 that has a next
    byte, and that next byte. *)
Definition pair_hit (i k L : Z) : bool :=
  (i <=? k) && (k <? L)
  && ((((k - i) mod 16 =? 0) && (k + 1 <? L)) || ((k - i) mod 16 =? 1)).

(** ** The command: [trimZeros] and [handleFiles] *)

(** [buf[:n]] for a length that the caller has checked. *)
Definition slice_to (buf : bytes) (n : Z) : bytes := firstn (Z.to_nat n) buf.

(** [for len(buf) > 0 && buf[len(buf)-1] == 0 { buf = buf[:len(buf)-1] }] *)
Fixpoint trim_loop (fuel : nat) (buf : bytes) : bytes :=
  match fuel with
  | O => buf
  | S fuel' =>
      if (0 <? len buf) && (at_index buf (len buf - 1) =? 0)
      then trim_loop fuel' (slice_to buf (len buf - 1))
      else buf
  end.

Definition trimZeros (buf : bytes) : bytes := trim_loop (length buf) buf.

(** The error of [handleFiles]: its own, or the one its callback
    returned. *)
Inductive handle_error (E : Type) : Type :=
| errNoFilesFound                   (* "no files found" *)
| errCallback (e : E).

Arguments errNoFilesFound {E}.
Arguments errCallback {E} e.

Section HandleFiles.

Variable unicodeToLower : bytes -> bytes.

(** The callback [fn(name, ofs, size)] works on what it captured, a state
    of type [St]: it returns the new state, or an error. *)
Variables St E : Type.
Variable fn : bytes -> Z -> Z -> St -> St + E.

(** [for _, f := range fs]; the accessors [Type], [String] and [Integer]
    are the matches on the constructors. *)
Fixpoint handle_loop (fs : list Value) (st : St) : St + handle_error E :=
  match fs with
  | [] => inl st
  | f :: rest =>
      if negb (Type_ f =? HashType) then handle_loop rest st
      else
        match Find unicodeToLower (Some f) (str "filename"),
              Find unicodeToLower (Some f) (str "offset"),
              Find unicodeToLower (Some f) (str "size") with
        | Some (VString name), Some (VInteger ofs), Some (VInteger size) =>
            match fn name ofs size st with
            | inl st' => handle_loop rest st'
            | inr e => inr (errCallback e)
            end
        | _, _, _ => handle_loop rest st
        end
  end.

(** [entries] is [reader.Entries()], a pointer. *)
Definition handleFiles (entries : option Value) (st : St)
  : St + handle_error E :=
  match Find unicodeToLower entries (str "files") with
  | Some (VArray fs) => handle_loop fs st
  | _ => inr errNoFilesFound
  end.

End HandleFiles.

(** The callback of the listing mode, which prints each name and size;
    the state is what has been printed, and printing does not fail
    here. *)
Definition list_entry (name : bytes) (ofs size : Z) (st : list (bytes * Z))
  : list (bytes * Z) + error :=
  inl (st ++ [(name, size)]).

(** A hash has the field [key] when it has an entry with that key and
    all its entries with that key hold the same value. *)
Definition has_field (hash : HashEntries) (key : bytes) (v : Value) : Prop :=
  In (key, v) hash /\ forall v', In (key, v') hash -> v' = v.

(** A value that describes a file the way [handleFiles] looks for it: a
    sorted hash with a text "filename" and integers "offset" and
    "size". *)
Definition file_entry (f : Value) (name : bytes) (ofs size : Z) : Prop :=
  exists hash,
    f = VHash hash /\ key_sorted hash /\
    has_field hash (str "filename") (VString name) /\
    has_field hash (str "offset") (VInteger ofs) /\
    has_field hash (str "size") (VInteger size).

(** ** Properties of a decoded tree *)

(** Every hash of a tree is in the order [sort.Slice] leaves it in. *)
Fixpoint deep_sorted (v : Value) : Prop :=
  match v with
  | VHash hash =>
      key_sorted hash /\
      (fix all (l : HashEntries) : Prop :=
         match l with
         | [] => True
         | e :: rest => deep_sorted (snd e) /\ all rest
         end) hash
  | VArray array =>
      (fix all (l : list Value) : Prop :=
         match l with
         | [] => True
         | x :: rest => deep_sorted x /\ all rest
         end) array
  | _ => True
  end.

(** The number of bytes the wire form of a value takes. *)
Fixpoint wire_size (v : Value) : Z :=
  match v with
  | VNull => 1
  | VHash hash =>
      6 + (fix sum (l : HashEntries) : Z :=
             match l with
             | [] => 0
             | e :: rest => 4 + wire_size (snd e) + sum rest
             end) hash
  | VArray array =>
      6 + (fix sum (l : list Value) : Z :=
             match l with
             | [] => 0
             | x :: rest => wire_size x + sum rest
             end) array
  | _ => 5
  end.

(** The bytes that the entries of a hash and the elements of an array
    take. *)
Definition entries_size (hash : HashEntries) : Z :=
  fold_right (fun e acc => 4 + wire_size (snd e) + acc) 0 hash.

Definition values_size (array : list Value) : Z :=
  fold_right (fun x acc => wire_size x + acc) 0 array.

(** ** Invariants of the decoder, for the fuel argument *)

(** [fuel_le r r']: more fuel changes nothing but an [OutOfFuel]. *)
Definition fuel_le {A : Type} (r r' : outcome A) : Prop :=
  r = OutOfFuel \/ r = r'.

Section DecoderInvariants.

Variable ParseFloat : bytes -> option float.
Variable table : list Z.

(** What is left of the buffer is a suffix of it; a value takes at least
    one byte, and the last byte a hash takes is its terminator. *)
Definition consumes (fuel : nat) : Prop :=
  (forall buf orig v rest,
      readValue ParseFloat table fuel buf orig = Ok (v, rest) ->
      exists pre, pre <> [] /\ buf = pre ++ rest) /\
  (forall buf orig v rest,
      readHash ParseFloat table fuel buf orig = Ok (v, rest) ->
      exists pre, buf = pre ++ HashType :: rest) /\
  (forall i n buf orig acc h rest,
      readHashEntries ParseFloat table fuel i n buf orig acc = Ok (h, rest) ->
      exists pre, buf = pre ++ rest) /\
  (forall i n buf orig acc a rest,
      readArrayEntries ParseFloat table fuel i n buf orig acc = Ok (a, rest) ->
      exists pre, buf = pre ++ rest).

Definition monotone (fuel : nat) : Prop :=
  (forall buf orig,
      fuel_le (readValue ParseFloat table fuel buf orig)
              (readValue ParseFloat table (S fuel) buf orig)) /\
  (forall buf orig,
      fuel_le (readHash ParseFloat table fuel buf orig)
              (readHash ParseFloat table (S fuel) buf orig)) /\
  (forall i n buf orig acc,
      fuel_le (readHashEntries ParseFloat table fuel i n buf orig acc)
              (readHashEntries ParseFloat table (S fuel) i n buf orig acc)) /\
  (forall i n buf orig acc,
      fuel_le (readArrayEntries ParseFloat table fuel i n buf orig acc)
              (readArrayEntries ParseFloat table (S fuel) i n buf orig acc)).

Definition adequate (fuel : nat) : Prop :=
  (forall buf orig,
      (2 * length buf + 2 <= fuel)%nat ->
      readValue ParseFloat table fuel buf orig <> OutOfFuel) /\
  (forall buf orig,
      (2 * length buf + 1 <= fuel)%nat ->
      readHash ParseFloat table fuel buf orig <> OutOfFuel) /\
  (forall i n buf orig acc,
      (2 * length buf + 3 <= fuel)%nat ->
      readHashEntries ParseFloat table fuel i n buf orig acc <> OutOfFuel) /\
  (forall i n buf orig acc,
      (2 * length buf + 3 <= fuel)%nat ->
      readArrayEntries ParseFloat table fuel i n buf orig acc <> OutOfFuel).

End DecoderInvariants.

(** ** Sample inputs *)

(** A directory block in the clear: the signature, the table position 36,
    the hash {"a": Integer "42", "b": String "hi"}, the offset table with
    its marker and sentinel, and the four zero-terminated texts. *)
Definition sample_block : bytes :=
  [ 1; 2; 3; 4;  0; 0; 0; 0;  36; 0; 0; 0;
    2;  2; 0; 0; 0;
    0; 0; 0; 0;  5;  1; 0; 0; 0;
    2; 0; 0; 0;  4;  3; 0; 0; 0;
    2;
    7;  57; 0; 0; 0;  59; 0; 0; 0;  62; 0; 0; 0;  64; 0; 0; 0;
    255; 255; 255; 255 ]
  ++ str "a" ++ [0] ++ str "42" ++ [0] ++ str "b" ++ [0] ++ str "hi" ++ [0].

(** The block obfuscated for method 1: [DecodeXOR 1] of it is
    [sample_block]. *)
Definition sample_raw_1 : bytes :=
  [ 13; 253; 57; 172; 185; 48; 112; 89; 152; 207; 100; 105; 188; 33; 164;
    147; 252; 142; 105; 216; 173; 193; 128; 73; 204; 187; 50; 191; 72;
    247; 150; 194; 141; 191; 184; 43; 121; 201; 201; 32; 197; 105; 194;
    143; 24; 185; 252; 203; 100; 22; 241; 0; 117; 35; 92; 106; 80; 70;
    141; 244; 49; 78; 73; 94; 121; 98; 165 ].


(** A container: directory at offset 8, 67 bytes long. *)
Definition container (raw : bytes) : bytes :=
  [8; 0; 0; 0] ++ [67; 0; 0; 0] ++ raw.

(** A container whose directory holds a hash with the count -1: the block
    [01 02 03 04 | 0 0 0 0 | 17 0 0 0 | 02 ff ff ff ff | 07 ff ff ff ff | 00]
    obfuscated for method 3, at offset 8. *)
Definition negative_count_file : bytes :=
  [8; 0; 0; 0] ++ [23; 0; 0; 0] ++
  [ 89; 169; 109; 248; 237; 100; 36; 13; 249; 174; 5; 8; 221; 189; 199;
    15; 159; 234; 242; 188; 54; 160; 224 ].

(** A block whose offset table has one entry, in its last four bytes. *)
Definition tight_table_block : bytes :=
  [ 1; 2; 3; 4;  0; 0; 0; 0;  12; 0; 0; 0;  7;  1; 0; 0; 0 ].

(** Parameters for running the samples above, none of which holds a
    double or a key outside ASCII. *)
Definition no_floats : bytes -> option float := fun _ => None.
Definition ascii_only : bytes -> bytes := fun s => s.




(** The hash of [sample_block] without its terminator byte. *)
Definition hash_without_terminator : bytes :=
  firstn 23 (slice_from sample_block 12).

(** The hash of [sample_block] on the wire, and what is left of the
    block after it. *)
Definition sample_hash_bytes : bytes := slice_from sample_block 12.
Definition sample_hash_rest : bytes := slice_from sample_block 36.

Definition sample_hash : Value :=
  VHash [(str "a", VInteger 42); (str "b", VString (str "hi"))].

(** A root with a directory of two files. *)
Definition sample_files : list Value :=
  [ VHash [ (str "filename", VString (str "a.txt"));
            (str "offset", VInteger 100); (str "size", VInteger 7) ];
    VHash [ (str "filename", VString (str "b.bnut"));
            (str "offset", VInteger 107); (str "size", VInteger 3) ] ].

Definition sample_root : HashEntries := [(str "files", VArray sample_files)].

(** * Properties *)

(** ** Exclusive-or and lengths *)

Lemma lxor_twice (a c : Z) : Z.lxor (Z.lxor a c) c = a.
Proof. now rewrite Z.lxor_assoc, Z.lxor_nilpotent, Z.lxor_0_r. Qed.

Lemma lxor_cancel_r (a b c : Z) : Z.lxor a c = Z.lxor b c -> a = b.
Proof.
  intros H. rewrite <- (lxor_twice a c), H. apply lxor_twice.
Qed.

Lemma xor_pass_length (code : Z) (buf : bytes) :
  forall i prev, length (xor_pass code i prev buf) = length buf.
Proof. induction buf as [|v rest IH]; intros; simpl; [|rewrite IH]; reflexivity. Qed.

Lemma xor_at_length (c : Z) (buf : bytes) :
  forall i, length (xor_at c i buf) = length buf.
Proof.
  induction buf as [|v rest IH]; intros [|i]; simpl; try rewrite IH; reflexivity.
Qed.

Lemma pair_pass_length (fuel : nat) :
  forall i buf, length (pair_pass fuel i buf) = length buf.
Proof.
  induction fuel as [|fuel IH]; intros i buf; simpl; [reflexivity|].
  destruct (i + 1 <? len buf); [|reflexivity].
  now rewrite IH, !xor_at_length.
Qed.

Lemma DecodeXOR_length (m : Z) (buf : bytes) :
  length (DecodeXOR m buf) = length buf.
Proof.
  unfold DecodeXOR. destruct (negb (m =? 0)).
  - now rewrite pair_pass_length, xor_pass_length.
  - apply xor_pass_length.
Qed.

(** The second loop ends by its own test: the fuel [DecodeXOR] gives it
    is never used up. *)
Lemma pair_pass_enough (fuel : nat) :
  forall i buf,
    len buf - 1 - i <= 16 * Z.of_nat fuel ->
    pair_pass (S fuel) i buf = pair_pass fuel i buf.
Proof.
  induction fuel as [|fuel IH]; intros i buf H.
  - cbn [pair_pass].
    destruct (i + 1 <? len buf) eqn:E; [apply Z.ltb_lt in E; lia|reflexivity].
  - change (pair_pass (S (S fuel)) i buf)
      with (if i + 1 <? len buf
            then pair_pass (S fuel) (i + 16)
                   (xor_at 0x0d (Z.to_nat (i + 1))
                      (xor_at 0x0d (Z.to_nat i) buf))
            else buf).
    cbn [pair_pass]. destruct (i + 1 <? len buf); [|reflexivity].
    apply IH. unfold len in *. rewrite !xor_at_length. lia.
Qed.

Lemma DecodeXOR_fuel (buf : bytes) :
  pair_pass (S (length buf)) 5 buf = pair_pass (length buf) 5 buf.
Proof. apply pair_pass_enough. unfold len. lia. Qed.

(** ** The cipher is one-to-one *)

Lemma xor_at_twice (c : Z) (buf : bytes) :
  forall i, xor_at c i (xor_at c i buf) = buf.
Proof.
  induction buf as [|v rest IH]; intros [|i]; simpl; trivial.
  - now rewrite lxor_twice.
  - now rewrite IH.
Qed.

Lemma xor_at_inj (c : Z) (i : nat) (b1 b2 : bytes) :
  xor_at c i b1 = xor_at c i b2 -> b1 = b2.
Proof.
  intros H. rewrite <- (xor_at_twice c b1 i), H. apply xor_at_twice.
Qed.

Lemma pair_pass_inj (fuel : nat) :
  forall i b1 b2,
    length b1 = length b2 ->
    pair_pass fuel i b1 = pair_pass fuel i b2 -> b1 = b2.
Proof.
  induction fuel as [|fuel IH]; intros i b1 b2 Hlen H; simpl in H; trivial.
  unfold len in H. rewrite Hlen in H.
  destruct (i + 1 <? Z.of_nat (length b2)); trivial.
  apply IH in H.
  - now apply xor_at_inj in H; apply xor_at_inj in H.
  - now rewrite !xor_at_length.
Qed.

Lemma xor_pass_inj (code : Z) (b1 : bytes) :
  forall b2 i prev,
    xor_pass code i prev b1 = xor_pass code i prev b2 -> b1 = b2.
Proof.
  induction b1 as [|v1 r1 IH]; intros [|v2 r2] i prev H; simpl in H;
    try discriminate; trivial.
  injection H as Hhd Htl.
  apply lxor_cancel_r in Hhd.
  rewrite Hhd in Htl. apply IH in Htl.
  do 2 apply lxor_cancel_r in Hhd. now subst.
Qed.

Lemma DecodeXOR_inj (m : Z) (b1 b2 : bytes) :
  DecodeXOR m b1 = DecodeXOR m b2 -> b1 = b2.
Proof.
  intros H.
  assert (Hlen : length b1 = length b2)
    by (rewrite <- (DecodeXOR_length m b1), H; apply DecodeXOR_length).
  unfold DecodeXOR, len in H. rewrite Hlen in H.
  destruct (negb (m =? 0)).
  - apply pair_pass_inj in H; [|now rewrite !xor_pass_length].
    now apply xor_pass_inj in H.
  - now apply xor_pass_inj in H.
Qed.

(** ** C1: the cipher applied twice *)

(** C1, as stated, fails: on the two-byte buffer [0; 0] a second
    application of [DecodeXOR] leaves [0; 0x4d] under each of the four
    methods, not the original bytes. *)
Lemma DecodeXOR_twice_differs :
  DecodeXOR 0 (DecodeXOR 0 [0; 0]) <> [0; 0] /\
  DecodeXOR 1 (DecodeXOR 1 [0; 0]) <> [0; 0] /\
  DecodeXOR 2 (DecodeXOR 2 [0; 0]) <> [0; 0] /\
  DecodeXOR 3 (DecodeXOR 3 [0; 0]) <> [0; 0].
Proof. repeat split; vm_compute; discriminate. Qed.

(** C1, amended: [DecodeXOR] is its own inverse on buffers of at most one
    byte; on longer buffers it is not, but under every method it stays
    one-to-one (and keeps the length), so the original bytes are still
    determined by the transformed ones. *)
Theorem DecodeXOR_short_involution_and_injective (m : Z) (buf : bytes) :
  ((length buf <= 1)%nat -> DecodeXOR m (DecodeXOR m buf) = buf) /\
  length (DecodeXOR m buf) = length buf /\
  (forall buf', DecodeXOR m buf' = DecodeXOR m buf -> buf' = buf).
Proof.
  split; [|split].
  - intros Hlen. destruct buf as [|v [|w rest]]; [| |simpl in Hlen; lia].
    + unfold DecodeXOR. now destruct (negb (m =? 0)).
    + unfold DecodeXOR. destruct (negb (m =? 0)); simpl; f_equal;
        rewrite !Z.lxor_assoc; apply Z.lxor_0_r.
  - apply DecodeXOR_length.
  - intros buf'. apply DecodeXOR_inj.
Qed.

Lemma DecodeXOR_short_involution_and_injective_witness :
  (length [7] <= 1)%nat /\ DecodeXOR 3 (DecodeXOR 3 [7]) = [7].
Proof.
  assert (H : (length [7] <= 1)%nat) by (simpl; lia).
  split; [exact H|].
  exact (proj1 (DecodeXOR_short_involution_and_injective 3 [7]) H).
Defined.

(** ** Bytes stay bytes *)

Lemma is_byte_iff (b : Z) : is_byte b = true <-> 0 <= b < 256.
Proof. unfold is_byte. rewrite andb_true_iff, Z.leb_le, Z.ltb_lt. tauto. Qed.

Lemma byte_log2 (a : Z) : 0 <= a < 256 -> Z.log2 a < 8.
Proof.
  intros [H0 H1]. destruct (Z.eq_dec a 0) as [->|Hn]; [reflexivity|].
  apply Z.log2_lt_pow2; lia.
Qed.

Lemma lxor_byte (a b : Z) :
  0 <= a < 256 -> 0 <= b < 256 -> 0 <= Z.lxor a b < 256.
Proof.
  intros Ha Hb.
  assert (H0 : 0 <= Z.lxor a b) by (apply Z.lxor_nonneg; lia).
  split; [exact H0|].
  destruct (Z.eq_dec (Z.lxor a b) 0) as [->|Hn]; [lia|].
  change 256 with (2 ^ 8). apply Z.log2_lt_pow2; [lia|].
  pose proof (Z.log2_lxor a b ltac:(lia) ltac:(lia)).
  pose proof (byte_log2 a Ha). pose proof (byte_log2 b Hb). lia.
Qed.

Lemma magic_byte (i : Z) : 0 <= at_index magicBytes (Z.land i 0xf) < 256.
Proof.
  change 0xf with (Z.ones 4). rewrite Z.land_ones by lia.
  pose proof (Z.mod_pos_bound i (2 ^ 4) ltac:(lia)) as H.
  change (2 ^ 4) with 16 in *.
  assert (Hc : forall k, (k < 16)%nat -> 0 <= nth k magicBytes 0 < 256).
  { intros k Hk. do 16 (destruct k as [|k]; [simpl; lia|]). lia. }
  apply Hc. lia.
Qed.

Lemma to_byte_range (z : Z) : 0 <= to_byte z < 256.
Proof. unfold to_byte. apply Z.mod_pos_bound. lia. Qed.

Lemma all_bytes_cons (b : Z) (buf : bytes) :
  all_bytes (b :: buf) = true <-> 0 <= b < 256 /\ all_bytes buf = true.
Proof.
  unfold all_bytes. simpl. now rewrite andb_true_iff, is_byte_iff.
Qed.

Lemma xor_pass_bytes (code : Z) (buf : bytes) :
  forall i prev,
    0 <= prev < 256 -> all_bytes buf = true ->
    all_bytes (xor_pass code i prev buf) = true.
Proof.
  induction buf as [|v rest IH]; intros i prev Hp Hb; [reflexivity|].
  apply all_bytes_cons in Hb as [Hv Hr]. simpl.
  assert (Hx : 0 <= Z.lxor (Z.lxor v (at_index magicBytes (Z.land i 15)))
                        (to_byte (i * code)) < 256)
    by (apply lxor_byte; [apply lxor_byte; [exact Hv|apply magic_byte]
                         |apply to_byte_range]).
  apply all_bytes_cons. split; [now apply lxor_byte|now apply IH].
Qed.

Lemma xor_at_bytes (c : Z) (buf : bytes) :
  forall i, 0 <= c < 256 -> all_bytes buf = true ->
            all_bytes (xor_at c i buf) = true.
Proof.
  induction buf as [|v rest IH]; intros [|i] Hc Hb; simpl; trivial;
    apply all_bytes_cons in Hb as [Hv Hr]; apply all_bytes_cons; split;
    trivial; [now apply lxor_byte|now apply IH].
Qed.

Lemma pair_pass_bytes (fuel : nat) :
  forall i buf, all_bytes buf = true -> all_bytes (pair_pass fuel i buf) = true.
Proof.
  induction fuel as [|fuel IH]; intros i buf Hb; simpl; trivial.
  destruct (i + 1 <? len buf); trivial.
  apply IH. apply xor_at_bytes; [lia|]. apply xor_at_bytes; [lia|exact Hb].
Qed.

Lemma DecodeXOR_bytes (m : Z) (buf : bytes) :
  all_bytes buf = true -> all_bytes (DecodeXOR m buf) = true.
Proof.
  intros Hb. unfold DecodeXOR.
  assert (H1 : all_bytes (xor_pass (xor_code m) 0 (to_byte (len buf)) buf) = true)
    by (apply xor_pass_bytes; [apply to_byte_range|exact Hb]).
  destruct (negb (m =? 0)); [now apply pair_pass_bytes|exact H1].
Qed.

(** ** The signature word *)

Lemma lor_shiftl_add (a b n : Z) :
  0 <= n -> 0 <= a < 2 ^ n -> Z.lor a (Z.shiftl b n) = a + b * 2 ^ n.
Proof.
  intros Hn Ha.
  rewrite <- Z.shiftl_mul_pow2 by exact Hn.
  rewrite <- Z.add_lor_land.
  assert (H0 : Z.land a (Z.shiftl b n) = 0).
  { apply Z.bits_inj'. intros k Hk.
    rewrite Z.land_spec, Z.bits_0.
    destruct (Z.lt_ge_cases k n) as [Hlt|Hge].
    - now rewrite Z.shiftl_spec_low, andb_false_r.
    - destruct (Z.eq_dec a 0) as [->|Hne]; [now rewrite Z.bits_0|].
      rewrite Z.bits_above_log2; [reflexivity|lia|].
      apply Z.lt_le_trans with n; [|exact Hge].
      apply Z.log2_lt_pow2; lia. }
  rewrite H0. lia.
Qed.

Lemma Uint32_sum (b0 b1 b2 b3 : Z) (rest : bytes) :
  0 <= b0 < 256 -> 0 <= b1 < 256 -> 0 <= b2 < 256 -> 0 <= b3 < 256 ->
  Uint32 (b0 :: b1 :: b2 :: b3 :: rest)
  = b0 + 256 * b1 + 65536 * b2 + 16777216 * b3.
Proof.
  intros H0 H1 H2 H3. unfold Uint32, at_index. simpl nth.
  rewrite (lor_shiftl_add b0 b1 8) by lia.
  rewrite (lor_shiftl_add _ b2 16) by lia.
  rewrite (lor_shiftl_add _ b3 24) by lia.
  lia.
Qed.

Lemma Uint32_range (buf : bytes) :
  all_bytes buf = true -> (4 <= length buf)%nat ->
  0 <= Uint32 buf < 4294967296.
Proof.
  intros Hb Hl.
  destruct buf as [|b0 [|b1 [|b2 [|b3 rest]]]]; simpl in Hl; try lia.
  apply all_bytes_cons in Hb as [H0 Hb]. apply all_bytes_cons in Hb as [H1 Hb].
  apply all_bytes_cons in Hb as [H2 Hb]. apply all_bytes_cons in Hb as [H3 Hb].
  rewrite Uint32_sum by assumption. lia.
Qed.

(** ** What the signature test sees of the cipher *)

Lemma xor_at_nth (c : Z) (buf : bytes) :
  forall i k, k <> i -> nth k (xor_at c i buf) 0 = nth k buf 0.
Proof.
  induction buf as [|v rest IH]; intros [|i] [|k] Hk; simpl; trivial;
    try congruence.
  apply IH. congruence.
Qed.

Lemma pair_pass_low (fuel : nat) :
  forall i buf k,
    0 <= i -> (k < Z.to_nat i)%nat ->
    nth k (pair_pass fuel i buf) 0 = nth k buf 0.
Proof.
  induction fuel as [|fuel IH]; intros i buf k Hi Hk; simpl; trivial.
  destruct (i + 1 <? len buf); trivial.
  rewrite IH by lia. rewrite !xor_at_nth by lia. reflexivity.
Qed.

(** The second loop starts at index 5: the signature word is that of the
    first loop alone. *)
Lemma Uint32_DecodeXOR (m : Z) (buf : bytes) :
  Uint32 (DecodeXOR m buf)
  = Uint32 (xor_pass (xor_code m) 0 (to_byte (len buf)) buf).
Proof.
  unfold DecodeXOR. destruct (negb (m =? 0)); [|reflexivity].
  unfold Uint32, at_index. now rewrite !pair_pass_low by (simpl; lia).
Qed.

Lemma Uint32_DecodeXOR_0_3 (buf : bytes) :
  Uint32 (DecodeXOR 0 buf) = Uint32 (DecodeXOR 3 buf).
Proof. now rewrite !Uint32_DecodeXOR. Qed.

Lemma DecodeXOR_1_3 (buf : bytes) : DecodeXOR 1 buf = DecodeXOR 3 buf.
Proof. reflexivity. Qed.

Lemma lxor_cancel_l (a b c : Z) : Z.lxor c a = Z.lxor c b -> a = b.
Proof. rewrite !(Z.lxor_comm c). apply lxor_cancel_r. Qed.

(** Methods 2 and 3 differ in the multiplier, which shows in the second
    byte: no block carries the signature under both. *)
Lemma signature_not_2_and_3 (buf : bytes) :
  all_bytes buf = true -> (4 <= length buf)%nat ->
  Uint32 (DecodeXOR 2 buf) = signature ->
  Uint32 (DecodeXOR 3 buf) = signature -> False.
Proof.
  intros Hb Hl.
  pose proof (DecodeXOR_bytes 2 buf Hb) as B2.
  pose proof (DecodeXOR_bytes 3 buf Hb) as B3.
  rewrite !Uint32_DecodeXOR.
  unfold DecodeXOR in B2, B3.
  change (negb (2 =? 0)) with true in B2. change (negb (3 =? 0)) with true in B3.
  set (p := to_byte (len buf)).
  assert (B2' : all_bytes (xor_pass (xor_code 2) 0 p buf) = true)
    by (apply xor_pass_bytes; [apply to_byte_range|exact Hb]).
  assert (B3' : all_bytes (xor_pass (xor_code 3) 0 p buf) = true)
    by (apply xor_pass_bytes; [apply to_byte_range|exact Hb]).
  clear B2 B3.
  destruct buf as [|v0 [|v1 [|v2 [|v3 rest]]]]; simpl in Hl; try lia.
  cbn [xor_pass] in *.
  repeat match goal with
         | H : all_bytes (_ :: _) = true |- _ =>
             apply all_bytes_cons in H; destruct H
         end.
  rewrite !Uint32_sum by assumption.
  unfold signature. intros E2 E3.
  match type of E2 with
  | ?a0 + 256 * ?a1 + _ + _ = _ =>
      match type of E3 with
      | ?c0 + 256 * ?c1 + _ + _ = _ =>
          assert (E : a1 = c1) by lia
      end
  end.
  apply lxor_cancel_r in E. apply lxor_cancel_l in E.
  vm_compute in E. discriminate.
Qed.

(** ** The prober *)


(** ** C10: methods 1 and 3 *)

(** C10: methods 1 and 3 both have the multiplier 0x6d and both run the
    second pass, so [DecodeXOR] gives the same bytes under them for every
    buffer, and the prober, which tries 3 before 1, never selects
    method 1. *)
Theorem method_1_is_method_3 :
  xor_code 1 = 0x6d /\ xor_code 3 = 0x6d /\
  (forall buf, DecodeXOR 1 buf = DecodeXOR 3 buf) /\
  (forall file offset size m buf,
      probe file offset size 4 = Ok (m, buf) -> m <> 1).
Proof.
  split; [reflexivity|]. split; [reflexivity|]. split; [reflexivity|].
  intros file offset size m buf H.
  cbn [probe] in H. unfold Seek in H.
  destruct (offset <? 0); [discriminate|]. cbn [bind] in H.
  destruct (ReadFull file offset size) as [raw| | |]; try discriminate.
  cbn [bind] in H. change (Z.of_nat 3) with 3 in H.
  change (Z.of_nat 2) with 2 in H. change (Z.of_nat 1) with 1 in H.
  change (Z.of_nat 0) with 0 in H.
  rewrite DecodeXOR_1_3 in H.
  destruct (len (DecodeXOR 3 raw) <? 4); [discriminate|].
  destruct (Uint32 (DecodeXOR 3 raw) =? signature);
    [injection H as <- _; discriminate|].
  destruct (len (DecodeXOR 2 raw) <? 4); [discriminate|].
  destruct (Uint32 (DecodeXOR 2 raw) =? signature);
    [injection H as <- _; discriminate|].
  destruct (len (DecodeXOR 0 raw) <? 4); [discriminate|].
  destruct (Uint32 (DecodeXOR 0 raw) =? signature);
    [injection H as <- _; discriminate|discriminate].
Qed.

Lemma method_1_is_method_3_witness :
  probe (container sample_raw_1) 8 67 4 = Ok (3, sample_block) /\ 3 <> 1.
Proof.
  assert (H : probe (container sample_raw_1) 8 67 4 = Ok (3, sample_block))
    by (vm_compute; reflexivity).
  split; [exact H|].
  exact (proj2 (proj2 (proj2 method_1_is_method_3)) _ _ _ _ _ H).
Defined.

(** ** C2: which method the prober selects *)





(** ** C5: the offset table *)

(** C5: the claim holds of the table as described and fails of the code.
    [tight_table_block] passes the three header checks and has exactly
    one four-byte entry, 1, after the marker; read as described the table
    is [1], but the loop of [readOffsets] asks for [pos + 4 < len buf]
    and returns the empty table. *)
Theorem readOffsets_drops_entry_at_end :
  len tight_table_block = 17 /\
  Uint32 (slice_from tight_table_block 8) = 12 /\
  at_index tight_table_block 12 = 7 /\
  offsets_as_described (length tight_table_block) 13 tight_table_block = [1] /\
  readOffsets tight_table_block = Ok [].
Proof. repeat split; vm_compute; reflexivity. Qed.

(** ** C8: string resolution *)

Lemma until_zero_split (buf : bytes) :
  exists tail,
    buf = until_zero buf ++ tail /\
    ~ In 0 (until_zero buf) /\
    (tail = [] \/ exists tail', tail = 0 :: tail').
Proof.
  induction buf as [|b rest (tail & Heq & Hnz & Htail)]; simpl.
  - exists []. auto.
  - destruct (b =? 0) eqn:E; simpl.
    + apply Z.eqb_eq in E. subst b. exists (0 :: rest).
      split; [reflexivity|]. split; [intros []|]. right. now exists rest.
    + apply Z.eqb_neq in E. exists tail.
      split; [now rewrite <- Heq|]. split; [|exact Htail].
      intros [H|H]; [congruence|auto].
Qed.

(** C8: [readString] fails with the invalid-index error exactly when the
    index is negative or not below the table length; otherwise, with
    [ofs] the table entry, it fails with the invalid-offset error exactly
    when [ofs] is negative or not below the block length; otherwise it
    returns the bytes of the block from [ofs] up to and without the first
    zero byte, or up to the end of the block when there is none. *)
Theorem readString_resolves (offsets : list Z) (block : bytes) (idx : Z) :
  let ofs := nth (Z.to_nat idx) offsets 0 in
  (readString offsets block idx = Err (errInvalidOffsetIndex idx)
   <-> idx < 0 \/ len offsets <= idx) /\
  (0 <= idx < len offsets ->
   (readString offsets block idx = Err (errInvalidOffset ofs)
    <-> ofs < 0 \/ len block <= ofs)) /\
  (0 <= idx < len offsets -> 0 <= ofs < len block ->
   exists text tail,
     readString offsets block idx = Ok text /\
     slice_from block ofs = text ++ tail /\
     ~ In 0 text /\
     (tail = [] \/ exists tail', tail = 0 :: tail')).
Proof.
  intros ofs. unfold readString. fold ofs.
  destruct ((idx <? 0) || (len offsets <=? idx)) eqn:Ei.
  - apply orb_true_iff in Ei. rewrite Z.ltb_lt, Z.leb_le in Ei.
    split; [tauto|]. split; intros; lia.
  - apply orb_false_iff in Ei. rewrite Z.ltb_ge, Z.leb_gt in Ei.
    destruct ((ofs <? 0) || (len block <=? ofs)) eqn:Eo.
    + apply orb_true_iff in Eo. rewrite Z.ltb_lt, Z.leb_le in Eo.
      split; [split; [discriminate|lia]|]. split; [tauto|lia].
    + apply orb_false_iff in Eo. rewrite Z.ltb_ge, Z.leb_gt in Eo.
      split; [split; [discriminate|lia]|].
      split; [intros _; split; [discriminate|lia]|].
      intros _ _.
      destruct (until_zero_split (slice_from block ofs)) as (tail & H1 & H2 & H3).
      exists (until_zero (slice_from block ofs)), tail. auto.
Qed.

Lemma readString_resolves_witness :
  exists text tail,
    readString [57; 59; 62; 64] sample_block 1 = Ok text /\
    slice_from sample_block 59 = text ++ tail /\
    ~ In 0 text /\
    (tail = [] \/ exists tail', tail = 0 :: tail').
Proof.
  refine (proj2 (proj2 (readString_resolves [57; 59; 62; 64] sample_block 1))
            _ _).
  - vm_compute. split; [discriminate|reflexivity].
  - vm_compute. split; [discriminate|reflexivity].
Defined.

(** ** The value decoder: progress and fuel *)

Lemma readByte_ok (buf : bytes) (x : Z) (rest : bytes) :
  readByte buf = Ok (x, rest) -> buf = x :: rest.
Proof.
  destruct buf; simpl; intros H; [discriminate|now injection H as -> ->].
Qed.

Lemma readInt_ok (buf : bytes) (x : Z) (rest : bytes) :
  readInt buf = Ok (x, rest) ->
  (4 <= length buf)%nat /\ x = to_int32 (Uint32 buf) /\ rest = skipn 4 buf.
Proof.
  unfold readInt, len.
  destruct (Z.of_nat (length buf) <? 4) eqn:E; [discriminate|].
  apply Z.ltb_ge in E. intros H. injection H as <- <-.
  split; [lia|]. split; reflexivity.
Qed.

Lemma readInt_split (buf : bytes) (x : Z) (rest : bytes) :
  readInt buf = Ok (x, rest) ->
  exists pre, length pre = 4%nat /\ buf = pre ++ rest.
Proof.
  intros H. apply readInt_ok in H as (Hl & _ & ->).
  exists (firstn 4 buf). split; [|now rewrite firstn_skipn].
  rewrite length_firstn. lia.
Qed.

Lemma readInt_length (buf : bytes) (x : Z) (rest : bytes) :
  readInt buf = Ok (x, rest) -> (length rest + 4 = length buf)%nat.
Proof.
  intros H. apply readInt_split in H as (pre & Hl & ->).
  rewrite length_app. lia.
Qed.

(** Inversion of a bind that succeeded. *)
Lemma bind_ok {A B : Type} (m : outcome A) (k : A -> outcome B) (b : B) :
  bind m k = Ok b -> exists a, m = Ok a /\ k a = Ok b.
Proof. destruct m; simpl; intros H; try discriminate. eauto. Qed.

Lemma bind_fuel {A B : Type} (m : outcome A) (k : A -> outcome B) :
  m <> OutOfFuel -> (forall a, m = Ok a -> k a <> OutOfFuel) ->
  bind m k <> OutOfFuel.
Proof. destruct m; simpl; intros Hm Hk; try discriminate; auto. Qed.

Lemma fuel_le_refl {A : Type} (r : outcome A) : fuel_le r r.
Proof. now right. Qed.

Lemma fuel_le_bind {A B : Type} (m m' : outcome A) (k k' : A -> outcome B) :
  fuel_le m m' -> (forall a, fuel_le (k a) (k' a)) ->
  fuel_le (bind m k) (bind m' k').
Proof.
  intros [->| ->] Hk; [now left|].
  destruct m'; simpl; try apply fuel_le_refl. apply Hk.
Qed.

Lemma readByte_fuel (buf : bytes) : readByte buf <> OutOfFuel.
Proof. destruct buf; discriminate. Qed.

Lemma readInt_fuel (buf : bytes) : readInt buf <> OutOfFuel.
Proof. unfold readInt. destruct (len buf <? 4); discriminate. Qed.

Lemma readString_fuel (table : list Z) (block : bytes) (idx : Z) :
  readString table block idx <> OutOfFuel.
Proof.
  unfold readString. destruct (_ || _); [discriminate|].
  destruct (_ || _); discriminate.
Qed.

Tactic Notation "bind_inv" hyp(H) "as" simple_intropattern(p) :=
  apply bind_ok in H; destruct H as p.

Ltac unfold_decoder :=
  cbn [readValue readHash readHashEntries readArrayEntries].

Section DecoderFacts.

Variable ParseFloat : bytes -> option float.
Variable table : list Z.

Ltac refold_decoder :=
  fold (readValue ParseFloat table) (readHash ParseFloat table)
       (readHashEntries ParseFloat table) (readArrayEntries ParseFloat table).

Lemma decoder_consumes (fuel : nat) : consumes ParseFloat table fuel.
Proof.
  induction fuel as [|fuel (IHv & IHh & IHhe & IHae)]; unfold consumes.
  - repeat split; intros until rest; simpl; try discriminate;
      (destruct (i <? n); [discriminate|]);
      intros H; injection H as _ <-; now exists [].
  - repeat split; intros until rest; unfold_decoder; intros H.
    + destruct buf as [|typ buf']; [discriminate|].
      destruct (typ =? NullType);
        [injection H as _ <-; now exists [typ]|].
      destruct (typ =? HashType).
      { apply IHh in H as (pre & ->). exists (pre ++ [HashType]).
        split; [now destruct pre|now rewrite <- app_assoc]. }
      destruct (typ =? ArrayType).
      { bind_inv H as ([n b1] & Hn & H).
        apply readInt_split in Hn as (p1 & _ & ->).
        destruct (n <? 0); [discriminate|].
        bind_inv H as ([arr b2] & Ha & H). apply IHae in Ha as (p2 & ->).
        bind_inv H as ([t b3] & Ht & H). apply readByte_ok in Ht as ->.
        destruct (negb (t =? ArrayType)); [discriminate|].
        injection H as _ <-. exists (typ :: p1 ++ p2 ++ [t]).
        split; [discriminate|]. simpl. now rewrite <- !app_assoc. }
      destruct (typ =? StringType).
      { bind_inv H as ([ofs b1] & Hn & H).
        apply readInt_split in Hn as (p1 & _ & ->).
        bind_inv H as (s & Hs & H). injection H as _ <-.
        exists (typ :: p1). split; [discriminate|reflexivity]. }
      destruct ((typ =? DoubleType) || (typ =? IntegerType)); [|discriminate].
      bind_inv H as ([ofs b1] & Hn & H).
      apply readInt_split in Hn as (p1 & _ & ->).
      bind_inv H as (num & Hs & H).
      assert (rest = b1) as ->.
      { destruct (typ =? IntegerType);
          [destruct (ParseInt num)|destruct (ParseFloat num)];
          try discriminate; now injection H as _ <-. }
      exists (typ :: p1). split; [discriminate|reflexivity].
    + bind_inv H as ([t b1] & Ht & H). apply readByte_ok in Ht as ->.
      destruct (negb (t =? HashType)); [discriminate|].
      bind_inv H as ([n b2] & Hn & H).
      apply readInt_split in Hn as (p1 & _ & ->).
      destruct (n =? 0); [discriminate|].
      destruct (n <? 0); [discriminate|].
      bind_inv H as ([hash b3] & Hh & H). apply IHhe in Hh as (p2 & ->).
      bind_inv H as ([t' b4] & Ht & H). apply readByte_ok in Ht as ->.
      destruct (t' =? HashType) eqn:Et; [|discriminate].
      apply Z.eqb_eq in Et as ->. injection H as _ <-.
      exists (t :: p1 ++ p2). simpl. now rewrite <- !app_assoc.
    + destruct (i <? n); [|injection H as _ <-; now exists []].
      bind_inv H as ([ofs b1] & Hn & H).
      apply readInt_split in Hn as (p1 & _ & ->).
      bind_inv H as (key & Hk & H).
      bind_inv H as ([entry b2] & He & H). apply IHv in He as (p2 & _ & ->).
      apply IHhe in H as (p3 & ->).
      exists (p1 ++ p2 ++ p3). now rewrite <- !app_assoc.
    + destruct (i <? n); [|injection H as _ <-; now exists []].
      bind_inv H as ([value b1] & He & H). apply IHv in He as (p1 & _ & ->).
      apply IHae in H as (p2 & ->).
      exists (p1 ++ p2). now rewrite <- !app_assoc.
Qed.

Lemma readValue_shrinks (fuel : nat) (buf orig : bytes) (v : Value) (rest : bytes) :
  readValue ParseFloat table fuel buf orig = Ok (v, rest) ->
  (length rest < length buf)%nat.
Proof.
  intros H. apply (proj1 (decoder_consumes fuel)) in H as (pre & Hp & ->).
  rewrite length_app. destruct pre; [congruence|simpl; lia].
Qed.

Lemma readHashEntries_shrinks (fuel : nat) (i n : Z) (buf orig : bytes)
      (acc h : HashEntries) (rest : bytes) :
  readHashEntries ParseFloat table fuel i n buf orig acc = Ok (h, rest) ->
  (length rest <= length buf)%nat.
Proof.
  intros H.
  apply (proj1 (proj2 (proj2 (decoder_consumes fuel)))) in H as (pre & ->).
  rewrite length_app. lia.
Qed.

Lemma readArrayEntries_shrinks (fuel : nat) (i n : Z) (buf orig : bytes)
      (acc a : list Value) (rest : bytes) :
  readArrayEntries ParseFloat table fuel i n buf orig acc = Ok (a, rest) ->
  (length rest <= length buf)%nat.
Proof.
  intros H.
  apply (proj2 (proj2 (proj2 (decoder_consumes fuel)))) in H as (pre & ->).
  rewrite length_app. lia.
Qed.

Ltac unfold_both fuel :=
  match goal with
  | |- fuel_le ?l _ =>
      let l' := eval cbn [readValue readHash readHashEntries readArrayEntries]
                in l in
      change l with l'
  end;
  let g := fresh "g" in
  let Eg := fresh "Eg" in
  remember (S fuel) as g eqn:Eg; unfold_decoder; subst g.

Ltac fuel_le_step :=
  match goal with
  | |- fuel_le ?r ?r => apply fuel_le_refl
  | |- fuel_le OutOfFuel _ => now left
  | |- fuel_le (bind _ _) (bind _ _) =>
      apply fuel_le_bind; [|intros [? ?] || intros ?]
  | |- fuel_le (if ?c then _ else _) (if ?c then _ else _) => destruct c
  | |- fuel_le (match ?x with _ => _ end) (match ?x with _ => _ end) =>
      destruct x
  end.

Lemma decoder_monotone (fuel : nat) : monotone ParseFloat table fuel.
Proof.
  induction fuel as [|fuel (IHv & IHh & IHhe & IHae)]; unfold monotone.
  - repeat split; intros; simpl; try (now left);
      destruct (i <? n); (now left) || apply fuel_le_refl.
  - repeat split; intros; unfold_both fuel;
      repeat (first [apply IHv | apply IHh | apply IHhe | apply IHae
                    | fuel_le_step]).
Qed.

Ltac fuel_step :=
  match goal with
  | H : readInt _ = Ok _ |- _ => apply readInt_length in H
  | H : readByte _ = Ok _ |- _ => apply readByte_ok in H; subst
  | H : readValue _ _ _ _ _ = Ok _ |- _ => apply readValue_shrinks in H
  | H : readHashEntries _ _ _ _ _ _ _ _ = Ok _ |- _ =>
      apply readHashEntries_shrinks in H
  | H : readArrayEntries _ _ _ _ _ _ _ _ = Ok _ |- _ =>
      apply readArrayEntries_shrinks in H
  | |- readByte _ <> OutOfFuel => apply readByte_fuel
  | |- readInt _ <> OutOfFuel => apply readInt_fuel
  | |- readString _ _ _ <> OutOfFuel => apply readString_fuel
  | |- Ok _ <> OutOfFuel => discriminate
  | |- Err _ <> OutOfFuel => discriminate
  | |- Panic _ <> OutOfFuel => discriminate
  | |- bind _ _ <> OutOfFuel =>
      apply bind_fuel; [|intros [? ?] ? || intros ? ?]
  | |- (if ?c then _ else _) <> OutOfFuel => destruct c
  | |- (match ?x with _ => _ end) <> OutOfFuel => destruct x
  end.

Lemma decoder_adequate (fuel : nat) : adequate ParseFloat table fuel.
Proof.
  induction fuel as [|fuel (IHv & IHh & IHhe & IHae)]; unfold adequate.
  - repeat split; intros; lia.
  - repeat split; intros; unfold_decoder; refold_decoder;
      repeat (first [ fuel_step
                    | apply IHv; simpl in *; lia
                    | apply IHh; simpl in *; lia
                    | apply IHhe; simpl in *; lia
                    | apply IHae; simpl in *; lia ]).
Qed.

(** The fuel of the entry point is enough: the decoder returns a value,
    an error or a panic, and more fuel would give the same. *)
Lemma readHash_fuel_for (buf orig : bytes) :
  readHash ParseFloat table (fuel_for buf) buf orig <> OutOfFuel.
Proof.
  apply (proj1 (proj2 (decoder_adequate (fuel_for buf)))).
  unfold fuel_for. lia.
Qed.

Lemma readHash_more_fuel (fuel k : nat) (buf orig : bytes) :
  readHash ParseFloat table fuel buf orig <> OutOfFuel ->
  readHash ParseFloat table (k + fuel) buf orig
  = readHash ParseFloat table fuel buf orig.
Proof.
  intros H. induction k as [|k IH]; [reflexivity|].
  destruct (proj1 (proj2 (decoder_monotone (k + fuel))) buf orig) as [E|E].
  - rewrite IH in E. contradiction.
  - change (S k + fuel)%nat with (S (k + fuel)). now rewrite <- E.
Qed.

Lemma readValue_more_fuel (fuel k : nat) (buf orig : bytes) :
  readValue ParseFloat table fuel buf orig <> OutOfFuel ->
  readValue ParseFloat table (k + fuel) buf orig
  = readValue ParseFloat table fuel buf orig.
Proof.
  intros H. induction k as [|k IH]; [reflexivity|].
  destruct (proj1 (decoder_monotone (k + fuel)) buf orig) as [E|E].
  - rewrite IH in E. contradiction.
  - change (S k + fuel)%nat with (S (k + fuel)). now rewrite <- E.
Qed.

End DecoderFacts.

(** ** C6: the empty hash *)

(** C6, as stated, fails: a hash with the count 0 is refused with
    [errTooShort], the very error a truncated hash gives; there is no
    error of its own for the empty hash. *)
Lemma empty_hash_is_errTooShort :
  readHash no_floats [] (fuel_for [2; 0; 0; 0; 0]) [2; 0; 0; 0; 0] []
  = readHash no_floats [] (fuel_for [2; 0; 0]) [2; 0; 0] [] /\
  ~ (exists e,
        readHash no_floats [] (fuel_for [2; 0; 0; 0; 0]) [2; 0; 0; 0; 0] []
        = Err e /\ e <> errTooShort).
Proof.
  split; [reflexivity|].
  intros (e & He & Hne). vm_compute in He. congruence.
Qed.

(** C6, amended: decoding a hash whose count is 0 fails and returns no
    value; the error is [errTooShort], "buffer too short", the same error
    that a buffer too short for a field gives. *)
Theorem empty_hash_fails (ParseFloat : bytes -> option float)
        (table : list Z) (fuel : nat) (buf1 buf2 orig : bytes) :
  readInt buf1 = Ok (0, buf2) ->
  readHash ParseFloat table (S fuel) (HashType :: buf1) orig = Err errTooShort /\
  readHash ParseFloat table (fuel_for (HashType :: buf1)) (HashType :: buf1) orig
  = Err errTooShort.
Proof.
  intros Hn.
  assert (H : forall f, readHash ParseFloat table (S f) (HashType :: buf1) orig
                        = Err errTooShort).
  { intros f. unfold_decoder. cbn [readByte bind].
    change (HashType =? HashType) with true. cbn [negb].
    rewrite Hn. reflexivity. }
  split; apply H.
Qed.

Lemma empty_hash_fails_witness :
  readInt [0; 0; 0; 0; 9] = Ok (0, [9]) /\
  readHash no_floats [] 1 [2; 0; 0; 0; 0; 9] [] = Err errTooShort.
Proof.
  assert (H : readInt [0; 0; 0; 0; 9] = Ok (0, [9])) by reflexivity.
  split; [exact H|].
  exact (proj1 (empty_hash_fails no_floats [] 0 _ _ [] H)).
Defined.

(** ** C4: negative counts *)

Lemma negative_count_panic (ParseFloat : bytes -> option float)
      (table : list Z) (fuel : nat) (n : Z) (buf1 buf2 orig : bytes) :
  readInt buf1 = Ok (n, buf2) -> n < 0 ->
  readHash ParseFloat table (S fuel) (HashType :: buf1) orig
  = Panic makesliceCapOutOfRange /\
  readValue ParseFloat table (S fuel) (ArrayType :: buf1) orig
  = Panic makesliceCapOutOfRange.
Proof.
  intros Hn Hneg. unfold_decoder. cbn [readByte bind].
  change (HashType =? HashType) with true. cbn [negb].
  change (ArrayType =? NullType) with false.
  change (ArrayType =? HashType) with false.
  change (ArrayType =? ArrayType) with true. cbv iota.
  rewrite Hn. cbn [bind].
  destruct (n =? 0) eqn:E0; [apply Z.eqb_eq in E0; lia|].
  destruct (n <? 0) eqn:E1; [|apply Z.ltb_ge in E1; lia].
  split; reflexivity.
Qed.

(** C4: the claim is right about what a decoder owes its caller and the
    code misses the case.  A hash or an array with the count bytes
    ff ff ff ff has the count -1; [make(HashEntries, 0, numEntries)] and
    [make([]*Value, 0, numEntries)] then panic, in [readHash], in
    [readValue] and in [ReadPack] on a container whose directory holds
    such a hash: no value and no error is returned. *)
Theorem negative_count_panics :
  readHash no_floats [] (fuel_for [2; 255; 255; 255; 255])
    [2; 255; 255; 255; 255] []
  = Panic makesliceCapOutOfRange /\
  readValue no_floats [] (fuel_for [3; 255; 255; 255; 255])
    [3; 255; 255; 255; 255] []
  = Panic makesliceCapOutOfRange /\
  ReadPack no_floats negative_count_file = Panic makesliceCapOutOfRange.
Proof. repeat split; vm_compute; reflexivity. Qed.

(** ** C7: terminators *)

(** C7, as stated, fails: a hash that declares one entry and has none,
    the sample hash cut before its terminator, and an array cut before
    its terminator are all refused with [errTooShort], not with the
    unterminated-hash or unterminated-array error. *)
Lemma short_input_is_errTooShort :
  readHash no_floats [] (fuel_for [2; 1; 0; 0; 0]) [2; 1; 0; 0; 0] []
  = Err errTooShort /\
  readHash no_floats [57; 59; 62; 64] (fuel_for hash_without_terminator)
    hash_without_terminator sample_block
  = Err errTooShort /\
  readValue no_floats [] (fuel_for [3; 0; 0; 0; 0]) [3; 0; 0; 0; 0] []
  = Err errTooShort /\
  errTooShort <> errUnterminatedHash /\
  errTooShort <> errUnterminatedArray.
Proof. repeat split; try (vm_compute; reflexivity); discriminate. Qed.

Section Terminators.

Variable ParseFloat : bytes -> option float.
Variable table : list Z.

Lemma readHash_after_count (fuel : nat) (n : Z) (buf1 buf2 orig : bytes) :
  readInt buf1 = Ok (n, buf2) -> 0 < n ->
  readHash ParseFloat table (S fuel) (HashType :: buf1) orig
  = ('(hash, buf3) <- readHashEntries ParseFloat table fuel 0 n buf2 orig [] ;;
     '(t, buf4) <- readByte buf3 ;;
     if negb (t =? HashType) then Err errUnterminatedHash
     else Ok (VHash (sortSlice hash), buf4)).
Proof.
  intros Hn Hpos. unfold_decoder. cbn [readByte bind].
  change (HashType =? HashType) with true. cbn [negb].
  rewrite Hn. cbn [bind].
  destruct (n =? 0) eqn:E0; [apply Z.eqb_eq in E0; lia|].
  destruct (n <? 0) eqn:E1; [apply Z.ltb_lt in E1; lia|].
  reflexivity.
Qed.

Lemma readValue_array_after_count (fuel : nat) (n : Z) (buf1 buf2 orig : bytes) :
  readInt buf1 = Ok (n, buf2) -> 0 <= n ->
  readValue ParseFloat table (S fuel) (ArrayType :: buf1) orig
  = ('(array, buf3) <- readArrayEntries ParseFloat table fuel 0 n buf2 orig [] ;;
     '(t, buf4) <- readByte buf3 ;;
     if negb (t =? ArrayType) then Err errUnterminatedArray
     else Ok (VArray array, buf4)).
Proof.
  intros Hn Hpos. unfold_decoder.
  change (ArrayType =? NullType) with false.
  change (ArrayType =? HashType) with false.
  change (ArrayType =? ArrayType) with true. cbv iota.
  rewrite Hn. cbn [bind].
  destruct (n <? 0) eqn:E1; [apply Z.ltb_lt in E1; lia|].
  reflexivity.
Qed.

(** C7, amended.  After the declared entries of a hash have been decoded,
    a next byte other than tag 2 gives the unterminated-hash error, and
    likewise a byte other than tag 3 after the entries of an array gives
    the unterminated-array error.  When the input ends where the
    terminator should be the error is [errTooShort], and when the
    declared entries cannot all be decoded the error is the one of the
    read that failed.  In none of these cases is a value returned: a hash
    or an array is returned only if the byte before the unread rest is
    its terminator. *)
Theorem terminator_is_enforced (fuel : nat) (n : Z) (buf1 buf2 orig : bytes) :
  readInt buf1 = Ok (n, buf2) ->
  (0 < n ->
   (forall hash t rest,
       readHashEntries ParseFloat table fuel 0 n buf2 orig [] = Ok (hash, t :: rest) ->
       t <> HashType ->
       readHash ParseFloat table (S fuel) (HashType :: buf1) orig
       = Err errUnterminatedHash) /\
   (forall hash,
       readHashEntries ParseFloat table fuel 0 n buf2 orig [] = Ok (hash, []) ->
       readHash ParseFloat table (S fuel) (HashType :: buf1) orig
       = Err errTooShort) /\
   (forall e,
       readHashEntries ParseFloat table fuel 0 n buf2 orig [] = Err e ->
       readHash ParseFloat table (S fuel) (HashType :: buf1) orig = Err e)) /\
  (0 <= n ->
   (forall array t rest,
       readArrayEntries ParseFloat table fuel 0 n buf2 orig [] = Ok (array, t :: rest) ->
       t <> ArrayType ->
       readValue ParseFloat table (S fuel) (ArrayType :: buf1) orig
       = Err errUnterminatedArray) /\
   (forall array,
       readArrayEntries ParseFloat table fuel 0 n buf2 orig [] = Ok (array, []) ->
       readValue ParseFloat table (S fuel) (ArrayType :: buf1) orig
       = Err errTooShort) /\
   (forall e,
       readArrayEntries ParseFloat table fuel 0 n buf2 orig [] = Err e ->
       readValue ParseFloat table (S fuel) (ArrayType :: buf1) orig = Err e)) /\
  (forall v rest,
      readHash ParseFloat table (S fuel) (HashType :: buf1) orig = Ok (v, rest) ->
      exists pre, buf1 = pre ++ HashType :: rest) /\
  (forall v rest,
      readValue ParseFloat table (S fuel) (ArrayType :: buf1) orig = Ok (v, rest) ->
      exists pre, buf1 = pre ++ ArrayType :: rest).
Proof.
  intros Hn. split; [|split; [|split]].
  - intros Hpos. rewrite (readHash_after_count fuel n buf1 buf2 orig Hn Hpos).
    split; [|split].
    + intros hash t rest -> Ht. cbn [bind readByte].
      apply Z.eqb_neq in Ht. now rewrite Ht.
    + now intros hash ->.
    + now intros e ->.
  - intros Hpos.
    rewrite (readValue_array_after_count fuel n buf1 buf2 orig Hn Hpos).
    split; [|split].
    + intros array t rest -> Ht. cbn [bind readByte].
      apply Z.eqb_neq in Ht. now rewrite Ht.
    + now intros array ->.
    + now intros e ->.
  - intros v rest H. revert H. unfold_decoder. cbn [readByte bind].
    change (HashType =? HashType) with true. cbn [negb].
    rewrite Hn. cbn [bind]. intros H.
    apply readInt_split in Hn as (p1 & _ & ->).
    destruct (n =? 0); [discriminate|].
    destruct (n <? 0); [discriminate|].
    bind_inv H as ([hash b2] & Ha & H).
    apply (proj1 (proj2 (proj2 (decoder_consumes ParseFloat table fuel)))) in Ha
      as (p2 & ->).
    bind_inv H as ([t b3] & Ht & H). apply readByte_ok in Ht as ->.
    destruct (t =? HashType) eqn:Et; [|discriminate].
    apply Z.eqb_eq in Et as ->. injection H as _ <-.
    exists (p1 ++ p2). now rewrite <- app_assoc.
  - intros v rest H. revert H. unfold_decoder.
    change (ArrayType =? NullType) with false.
    change (ArrayType =? HashType) with false.
    change (ArrayType =? ArrayType) with true. cbv iota.
    rewrite Hn. cbn [bind]. intros H.
    apply readInt_split in Hn as (p1 & _ & ->).
    destruct (n <? 0); [discriminate|].
    bind_inv H as ([array b2] & Ha & H).
    apply (proj2 (proj2 (proj2 (decoder_consumes ParseFloat table fuel)))) in Ha
      as (p2 & ->).
    bind_inv H as ([t b3] & Ht & H). apply readByte_ok in Ht as ->.
    destruct (t =? ArrayType) eqn:Et; [|discriminate].
    apply Z.eqb_eq in Et as ->. injection H as _ <-.
    exists (p1 ++ p2). now rewrite <- app_assoc.
Qed.

End Terminators.

Lemma terminator_is_enforced_witness :
  readHash no_floats [57; 59; 62; 64] 9
    ([2; 2; 0; 0; 0; 0; 0; 0; 0; 5; 1; 0; 0; 0; 2; 0; 0; 0; 4; 3; 0; 0; 0; 3])
    sample_block
  = Err errUnterminatedHash.
Proof.
  refine (proj1 (proj1 (terminator_is_enforced no_floats [57; 59; 62; 64] 8 2
            [2; 0; 0; 0; 0; 0; 0; 0; 5; 1; 0; 0; 0; 2; 0; 0; 0; 4; 3; 0; 0; 0; 3]
            [0; 0; 0; 0; 5; 1; 0; 0; 0; 2; 0; 0; 0; 4; 3; 0; 0; 0; 3]
            sample_block _) _)
            [(str "a", VInteger 42); (str "b", VString (str "hi"))] 3 [] _ _).
  - reflexivity.
  - lia.
  - vm_compute; reflexivity.
  - discriminate.
Defined.

(** ** C9: numbers *)









(** ** The order of strings *)

Ltac cmp_cases :=
  repeat match goal with
         | H : context [?x <? ?y] |- _ =>
             let E := fresh "E" in
             destruct (x <? y) eqn:E;
             [apply Z.ltb_lt in E|apply Z.ltb_ge in E]
         | |- context [?x <? ?y] =>
             let E := fresh "E" in
             destruct (x <? y) eqn:E;
             [apply Z.ltb_lt in E|apply Z.ltb_ge in E]
         end.

Lemma str_ltb_irrefl (a : bytes) : str_ltb a a = false.
Proof.
  induction a as [|x a IH]; simpl; [reflexivity|].
  cmp_cases; try lia. exact IH.
Qed.

Lemma str_ltb_antisym (a : bytes) :
  forall b, str_ltb a b = false -> str_ltb b a = false -> a = b.
Proof.
  induction a as [|x a IH]; intros [|y b] H1 H2; simpl in *;
    try discriminate; trivial.
  cmp_cases; try discriminate; try lia.
  assert (x = y) by lia. subst. f_equal. now apply IH.
Qed.

(** [a <= b] and [b <= c] give [a <= c], with [a <= b] written as
    [str_ltb b a = false]. *)
Lemma str_le_trans (a : bytes) :
  forall b c, str_ltb b a = false -> str_ltb c b = false ->
              str_ltb c a = false.
Proof.
  induction a as [|x a IH]; intros [|y b] [|z c] H1 H2; simpl in *;
    try discriminate; trivial.
  cmp_cases; try discriminate; try lia; trivial.
  now apply (IH b c).
Qed.

Lemma str_ltb_le (a b : bytes) : str_ltb a b = true -> str_ltb b a = false.
Proof.
  revert b. induction a as [|x a IH]; intros [|y b] H; simpl in *;
    try discriminate; trivial.
  cmp_cases; try discriminate; try lia; trivial. now apply IH.
Qed.

Lemma str_eqb_eq (a b : bytes) : str_eqb a b = true <-> a = b.
Proof.
  revert b. induction a as [|x a IH]; intros [|y b]; simpl;
    try (split; [discriminate|congruence]); [tauto|].
  rewrite andb_true_iff, Z.eqb_eq, IH. split; [intros [-> ->]|intros H];
    [reflexivity|now injection H].
Qed.

(** ** The hash is sorted *)

Lemma insert_entry_In (e x : bytes * Value) (hash : HashEntries) :
  In x (insert_entry e hash) <-> x = e \/ In x hash.
Proof.
  induction hash as [|e' rest IH]; simpl.
  - intuition congruence.
  - destruct (str_ltb (fst e) (fst e')); simpl; [intuition congruence|].
    rewrite IH. intuition congruence.
Qed.

Lemma sortSlice_In (x : bytes * Value) (hash : HashEntries) :
  In x (sortSlice hash) <-> In x hash.
Proof.
  induction hash as [|e rest IH]; simpl; [tauto|].
  rewrite insert_entry_In, IH. intuition congruence.
Qed.

Lemma insert_entry_sorted (e : bytes * Value) (hash : HashEntries) :
  key_sorted hash -> key_sorted (insert_entry e hash).
Proof.
  unfold key_sorted.
  induction hash as [|e' rest IH]; intros Hs; simpl.
  - constructor; constructor.
  - inversion Hs as [|? ? Hrest Hall]; subst.
    destruct (str_ltb (fst e) (fst e')) eqn:E.
    + constructor; [exact Hs|].
      apply str_ltb_le in E.
      constructor; [exact E|].
      apply Forall_forall. intros x Hx.
      rewrite Forall_forall in Hall. specialize (Hall x Hx).
      unfold key_le in *. now apply (str_le_trans (fst e) (fst e') (fst x)).
    + constructor; [now apply IH|].
      apply Forall_forall. intros x Hx. apply insert_entry_In in Hx as [->|Hx].
      * exact E.
      * rewrite Forall_forall in Hall. now apply Hall.
Qed.

Lemma sortSlice_sorted (hash : HashEntries) : key_sorted (sortSlice hash).
Proof.
  induction hash as [|e rest IH]; simpl; [constructor|].
  now apply insert_entry_sorted.
Qed.

Lemma readHash_sorted (ParseFloat : bytes -> option float) (table : list Z)
      (fuel : nat) (buf orig : bytes) (v : Value) (rest : bytes) :
  readHash ParseFloat table fuel buf orig = Ok (v, rest) ->
  exists hash, v = VHash hash /\ key_sorted hash.
Proof.
  destruct fuel as [|fuel]; [discriminate|]. unfold_decoder. intros H.
  bind_inv H as ([t b1] & Ht & H).
  destruct (negb (t =? HashType)); [discriminate|].
  bind_inv H as ([n b2] & Hn & H).
  destruct (n =? 0); [discriminate|]. destruct (n <? 0); [discriminate|].
  bind_inv H as ([hash b3] & Hh & H).
  bind_inv H as ([t' b4] & Ht' & H).
  destruct (negb (t' =? HashType)); [discriminate|].
  injection H as <- _. exists (sortSlice hash).
  split; [reflexivity|apply sortSlice_sorted].
Qed.

(** ** Binary search *)

Lemma search_loop_spec (f : Z -> bool) (n : Z) :
  (forall a b, 0 <= a <= b -> b < n -> f a = true -> f b = true) ->
  forall fuel i j,
    0 <= i <= j -> j <= n -> j - i <= Z.of_nat fuel ->
    (forall k, 0 <= k < i -> f k = false) ->
    (forall k, j <= k < n -> f k = true) ->
    i <= search_loop fuel f i j <= j /\
    (forall k, 0 <= k < search_loop fuel f i j -> f k = false) /\
    (forall k, search_loop fuel f i j <= k < n -> f k = true).
Proof.
  intros Hmono. induction fuel as [|fuel IH]; intros i j Hij Hjn Hfuel Hlo Hhi.
  - simpl. assert (i = j) by lia. subst. repeat split; auto; lia.
  - cbn [search_loop]. destruct (i <? j) eqn:E.
    + apply Z.ltb_lt in E.
      assert (Hh : i <= Z.shiftr (i + j) 1 < j).
      { rewrite Z.shiftr_div_pow2 by lia. change (2 ^ 1) with 2.
        split; [apply Z.div_le_lower_bound|apply Z.div_lt_upper_bound]; lia. }
      set (h := Z.shiftr (i + j) 1) in *.
      destruct (f h) eqn:Ef; cbn [negb].
      * destruct (IH i h) as (H1 & H2 & H3); try lia; auto.
        { intros k Hk. apply (Hmono h k); auto; lia. }
        repeat split; auto; lia.
      * destruct (IH (h + 1) j) as (H1 & H2 & H3); try lia; auto.
        { intros k Hk. destruct (f k) eqn:Efk; [|reflexivity].
          rewrite (Hmono k h) in Ef; [discriminate|lia|lia|exact Efk]. }
        repeat split; auto; lia.
    + apply Z.ltb_ge in E. assert (i = j) by lia. subst.
      repeat split; auto; lia.
Qed.

(** The loop of [sort.Search] ends by its own test, whatever [f] is. *)
Lemma search_loop_enough (f : Z -> bool) (fuel : nat) :
  forall i j,
    0 <= i -> j - i <= Z.of_nat fuel ->
    search_loop (S fuel) f i j = search_loop fuel f i j.
Proof.
  induction fuel as [|fuel IH]; intros i j Hi H.
  - cbn [search_loop].
    destruct (i <? j) eqn:E; [apply Z.ltb_lt in E; lia|reflexivity].
  - change (search_loop (S (S fuel)) f i j)
      with (if i <? j
            then let h := Z.shiftr (i + j) 1 in
                 if negb (f h) then search_loop (S fuel) f (h + 1) j
                 else search_loop (S fuel) f i h
            else i).
    cbn [search_loop]. destruct (i <? j) eqn:E; [|reflexivity].
    apply Z.ltb_lt in E.
    assert (Hh : i <= Z.shiftr (i + j) 1 < j).
    { rewrite Z.shiftr_div_pow2 by lia. change (2 ^ 1) with 2.
      split; [apply Z.div_le_lower_bound|apply Z.div_lt_upper_bound]; lia. }
    cbv zeta. destruct (negb (f (Z.shiftr (i + j) 1))); apply IH; lia.
Qed.

Lemma Search_spec (f : Z -> bool) (n : Z) :
  0 <= n ->
  (forall a b, 0 <= a <= b -> b < n -> f a = true -> f b = true) ->
  0 <= Search n f <= n /\
  (forall k, 0 <= k < Search n f -> f k = false) /\
  (forall k, Search n f <= k < n -> f k = true).
Proof.
  intros Hn Hmono. unfold Search.
  apply (search_loop_spec f n Hmono); try lia; intros; lia.
Qed.

Lemma sorted_nth_error {A : Type} (R : A -> A -> Prop) (l : list A) :
  StronglySorted R l ->
  forall a b x y,
    (a < b)%nat -> nth_error l a = Some x -> nth_error l b = Some y -> R x y.
Proof.
  induction 1 as [|e l Hs IH Hall]; intros a b x y Hab Ha Hb.
  - now destruct a.
  - destruct b as [|b]; [lia|]. simpl in Hb.
    destruct a as [|a]; simpl in Ha.
    + injection Ha as <-. rewrite Forall_forall in Hall.
      apply Hall. now apply nth_error_In with b.
    + apply (IH a b); auto. lia.
Qed.

Lemma key_at_nth (hash : HashEntries) (i : Z) (e : bytes * Value) :
  nth_error hash (Z.to_nat i) = Some e ->
  key_at hash i = fst e /\ value_at hash i = Some (snd e).
Proof. unfold key_at, value_at. now intros ->. Qed.

Lemma nth_error_in_range {A : Type} (l : list A) (i : Z) :
  0 <= i < len l -> exists e, nth_error l (Z.to_nat i) = Some e.
Proof.
  intros Hi. destruct (nth_error l (Z.to_nat i)) as [e|] eqn:E; [eauto|].
  apply nth_error_None in E. unfold len in Hi. lia.
Qed.

(** In a sorted hash the keys from some index on are the ones that are
    not below the name. *)
Lemma key_test_monotone (hash : HashEntries) (name : bytes) :
  key_sorted hash ->
  forall a b, 0 <= a <= b -> b < len hash ->
    negb (str_ltb (key_at hash a) name) = true ->
    negb (str_ltb (key_at hash b) name) = true.
Proof.
  intros Hs a b Hab Hb Ha.
  destruct (Z.eq_dec a b) as [->|Hne]; [exact Ha|].
  destruct (nth_error_in_range hash a ltac:(lia)) as (ea & Ea).
  destruct (nth_error_in_range hash b ltac:(lia)) as (eb & Eb).
  pose proof (sorted_nth_error key_le hash Hs (Z.to_nat a) (Z.to_nat b) ea eb
                ltac:(lia) Ea Eb) as Hle.
  apply key_at_nth in Ea as [Ka _]. apply key_at_nth in Eb as [Kb _].
  rewrite Ka in Ha. rewrite Kb. apply negb_true_iff in Ha.
  apply negb_true_iff. unfold key_le in Hle.
  now apply (str_le_trans name (fst ea) (fst eb)).
Qed.

(** ** C3: lookup *)

Lemma lower_ascii_not_upper (c : Z) :
  (65 <=? lower_ascii c) && (lower_ascii c <=? 90) = false.
Proof.
  unfold lower_ascii.
  destruct ((65 <=? c) && (c <=? 90)) eqn:E; [|exact E].
  apply andb_true_iff in E as [H1 H2]. apply Z.leb_le in H1, H2.
  apply andb_false_iff. right. apply Z.leb_gt. lia.
Qed.

Lemma lower_has_no_upper (s : bytes) : has_upper (map lower_ascii s) = false.
Proof.
  induction s as [|c s IH]; [reflexivity|].
  unfold has_upper in *. simpl. now rewrite lower_ascii_not_upper, IH.
Qed.

Lemma lower_of_lower_case (s : bytes) :
  has_upper s = false -> map lower_ascii s = s.
Proof.
  induction s as [|c s IH]; [reflexivity|].
  unfold has_upper. simpl. intros H. apply orb_false_iff in H as [Hc Hs].
  unfold lower_ascii at 1. rewrite Hc. f_equal. now apply IH.
Qed.

(** Lower-casing never moves a string down in the byte order. *)
Lemma lower_not_below (s : bytes) : str_ltb (map lower_ascii s) s = false.
Proof.
  induction s as [|c s IH]; [reflexivity|]. simpl.
  unfold lower_ascii at 1 3.
  destruct ((65 <=? c) && (c <=? 90)); cmp_cases; try lia; trivial.
Qed.

Section FindFacts.

Variable unicodeToLower : bytes -> bytes.

(** What a hit of [Find] on a sorted hash is: an entry whose key is not
    below the name and whose lower-cased key is the name. *)
Lemma Find_hit (hash : HashEntries) (name : bytes) (val : Value) :
  key_sorted hash ->
  Find unicodeToLower (Some (VHash hash)) name = Some val ->
  exists e,
    In e hash /\ snd e = val /\
    name = ToLower unicodeToLower (fst e) /\
    str_ltb (fst e) name = false.
Proof.
  intros Hs. unfold Find.
  set (f := fun i => negb (str_ltb (key_at hash i) name)).
  destruct (Search_spec f (len hash)) as (Hr & _ & Htrue);
    [unfold len; lia|exact (key_test_monotone hash name Hs)|].
  set (idx := Search (len hash) f) in *.
  destruct (idx <? len hash) eqn:Ei; [|discriminate].
  apply Z.ltb_lt in Ei.
  destruct (str_eqb name _) eqn:Ee; [|discriminate]. cbn [andb].
  apply str_eqb_eq in Ee.
  destruct (nth_error_in_range hash idx ltac:(lia)) as (e & He).
  destruct (key_at_nth hash idx e He) as [Hk Hv].
  rewrite Hv. intros H. injection H as <-.
  exists e. split; [now apply nth_error_In with (Z.to_nat idx)|].
  split; [reflexivity|]. rewrite Hk in Ee. split; [exact Ee|].
  specialize (Htrue idx ltac:(lia)). unfold f in Htrue.
  rewrite Hk in Htrue. now apply negb_true_iff in Htrue.
Qed.

(** A lower-case ASCII name that is a key of a sorted hash is found. *)
Lemma Find_present (hash : HashEntries) (name : bytes) (val : Value) :
  key_sorted hash ->
  is_ascii name = true -> has_upper name = false ->
  In (name, val) hash ->
  exists val', Find unicodeToLower (Some (VHash hash)) name = Some val' /\
               In (name, val') hash.
Proof.
  intros Hs Ha Hu Hin. unfold Find.
  set (f := fun i => negb (str_ltb (key_at hash i) name)).
  destruct (Search_spec f (len hash)) as (Hr & Hfalse & Htrue);
    [unfold len; lia|exact (key_test_monotone hash name Hs)|].
  set (idx := Search (len hash) f) in *.
  apply In_nth_error in Hin as (p & Hp).
  assert (Hplen : (p < length hash)%nat)
    by (apply nth_error_Some; congruence).
  assert (Hfp : f (Z.of_nat p) = true).
  { unfold f, key_at. rewrite Nat2Z.id, Hp. simpl.
    now rewrite str_ltb_irrefl. }
  assert (Hidx : idx <= Z.of_nat p).
  { destruct (Z.le_gt_cases idx (Z.of_nat p)) as [H|H]; [exact H|].
    rewrite Hfalse in Hfp by lia. discriminate. }
  assert (Hlt : idx < len hash) by (unfold len; lia).
  destruct (nth_error_in_range hash idx ltac:(lia)) as (e & He).
  destruct (key_at_nth hash idx e He) as [Hk Hv].
  assert (Hkey : fst e = name).
  { specialize (Htrue idx ltac:(lia)). unfold f in Htrue.
    rewrite Hk in Htrue. apply negb_true_iff in Htrue.
    destruct (Z.eq_dec idx (Z.of_nat p)) as [Heq|Hne].
    - rewrite Heq, Nat2Z.id, Hp in He. now injection He as <-.
    - pose proof (sorted_nth_error key_le hash Hs (Z.to_nat idx) p e
                    (name, val) ltac:(lia) He Hp) as Hle.
      unfold key_le in Hle. simpl in Hle. now apply str_ltb_antisym. }
  apply Z.ltb_lt in Hlt. rewrite Hlt, Hk, Hv, Hkey. cbn [andb].
  unfold ToLower. rewrite Ha, (lower_of_lower_case name Hu).
  assert (Hrefl : str_eqb name name = true) by now apply str_eqb_eq.
  rewrite Hrefl. exists (snd e). split; [reflexivity|].
  apply nth_error_In in He. destruct e as [k x]. cbn [fst snd] in *.
  rewrite Hkey in He. exact He.
Qed.

End FindFacts.

(** C3, as stated, fails: in the hash decoded from the sample container,
    which has the key "a", [Find] of "a" returns Integer 42 and [Find]
    of "A" returns nothing, because the search key is compared as it is
    given. *)
Lemma Find_is_case_sensitive :
  exists r,
    ReadPack no_floats (container sample_raw_1) = Ok r /\
    Find ascii_only (Some (entries r)) (str "a") = Some (VInteger 42) /\
    Find ascii_only (Some (entries r)) (str "b") = Some (VString (str "hi")) /\
    Find ascii_only (Some (entries r)) (str "A") = None.
Proof.
  eexists. split; [vm_compute; reflexivity|].
  repeat split; vm_compute; reflexivity.
Qed.

(** C3, amended: for every decoded hash, [Find] compares the search key
    as it is given (it is never lower-cased) with the keys, which are
    sorted byte-wise, and lower-cases only the stored key of the entry
    the binary search stops at.  With ASCII keys a hit is therefore an
    entry whose key is byte for byte the search key, and the search key
    has no capital letter: a lower-case name that is a key is found
    ([Find] of "a" on a hash with the key "a"), and a name with a capital
    letter is never found ([Find] of "A"). *)
Theorem Find_is_exact (ParseFloat : bytes -> option float)
        (unicodeToLower : bytes -> bytes) (table : list Z) (fuel : nat)
        (buf orig : bytes) (v : Value) (rest : bytes) :
  readHash ParseFloat table fuel buf orig = Ok (v, rest) ->
  exists hash,
    v = VHash hash /\
    (forall name val,
        is_ascii name = true -> has_upper name = false ->
        In (name, val) hash ->
        exists val', Find unicodeToLower (Some v) name = Some val' /\
                     In (name, val') hash) /\
    (Forall (fun e => is_ascii (fst e) = true) hash ->
     (forall name val,
         Find unicodeToLower (Some v) name = Some val ->
         In (name, val) hash /\ has_upper name = false) /\
     (forall name,
         has_upper name = true -> Find unicodeToLower (Some v) name = None)).
Proof.
  intros H. apply readHash_sorted in H as (hash & -> & Hs).
  exists hash. split; [reflexivity|]. split.
  - intros name val. now apply Find_present.
  - intros Hascii.
    assert (Hhit : forall name val,
               Find unicodeToLower (Some (VHash hash)) name = Some val ->
               In (name, val) hash /\ has_upper name = false).
    { intros name val Hf.
      apply Find_hit in Hf as (e & Hin & Hv & Hname & Hge); [|exact Hs].
      rewrite Forall_forall in Hascii. specialize (Hascii e Hin).
      unfold ToLower in Hname. rewrite Hascii in Hname.
      assert (Hk : fst e = name).
      { apply str_ltb_antisym; [exact Hge|].
        rewrite Hname. apply lower_not_below. }
      split.
      - destruct e as [k x]. cbn [fst snd] in *.
        rewrite <- Hk, <- Hv. exact Hin.
      - rewrite Hname. apply lower_has_no_upper. }
    split; [exact Hhit|].
    intros name Hu.
    destruct (Find unicodeToLower (Some (VHash hash)) name) as [val|] eqn:E;
      [|reflexivity].
    apply Hhit in E as [_ E]. congruence.
Qed.

Lemma Find_is_exact_witness :
  exists hash,
    VHash [(str "a", VInteger 42); (str "b", VString (str "hi"))] = VHash hash /\
    (forall name val,
        is_ascii name = true -> has_upper name = false ->
        In (name, val) hash ->
        exists val',
          Find ascii_only
            (Some (VHash [(str "a", VInteger 42); (str "b", VString (str "hi"))]))
            name = Some val' /\
          In (name, val') hash) /\
    (Forall (fun e => is_ascii (fst e) = true) hash ->
     (forall name val,
         Find ascii_only
           (Some (VHash [(str "a", VInteger 42); (str "b", VString (str "hi"))]))
           name = Some val ->
         In (name, val) hash /\ has_upper name = false) /\
     (forall name,
         has_upper name = true ->
         Find ascii_only
           (Some (VHash [(str "a", VInteger 42); (str "b", VString (str "hi"))]))
           name = None)).
Proof.
  refine (Find_is_exact no_floats ascii_only [57; 59; 62; 64]
            (fuel_for (slice_from sample_block 12))
            (slice_from sample_block 12) sample_block _ _ _).
  vm_compute. reflexivity.
Defined.

(** ** [ReadPack] returns *)

Lemma to_int32_range (z : Z) : -2147483648 <= to_int32 z < 2147483648.
Proof.
  unfold to_int32.
  pose proof (Z.mod_pos_bound z 4294967296 ltac:(lia)).
  destruct (z mod 4294967296 <? 2147483648) eqn:E;
    [apply Z.ltb_lt in E|apply Z.ltb_ge in E]; lia.
Qed.

Lemma ReadFull_fuel (file : bytes) (pos n : Z) :
  ReadFull file pos n <> OutOfFuel.
Proof.
  unfold ReadFull. destruct (n =? 0); [discriminate|].
  destruct (len file <=? pos); [discriminate|].
  destruct (len file - pos <? n); discriminate.
Qed.

Lemma ReadFull_length (file : bytes) (pos n : Z) (raw : bytes) :
  0 <= pos -> 0 <= n -> ReadFull file pos n = Ok raw -> len raw = n.
Proof.
  intros Hpos Hn. unfold ReadFull.
  destruct (n =? 0) eqn:E0.
  - apply Z.eqb_eq in E0. intros H. injection H as <-. now subst.
  - destruct (len file <=? pos) eqn:E1; [discriminate|].
    destruct (len file - pos <? n) eqn:E2; [discriminate|].
    apply Z.leb_gt in E1. apply Z.ltb_ge in E2.
    intros H. injection H as <-. unfold len, slice_from in *.
    rewrite length_firstn, length_skipn. lia.
Qed.

Lemma probe_fuel (file : bytes) (offset size : Z) (n : nat) :
  probe file offset size n <> OutOfFuel.
Proof.
  induction n as [|n IH]; cbn [probe]; [discriminate|].
  unfold Seek. destruct (offset <? 0); [discriminate|]. cbn [bind].
  destruct (ReadFull file offset size) eqn:E; cbn [bind]; try discriminate.
  - destruct (len _ <? 4); [discriminate|].
    destruct (Uint32 _ =? signature); [discriminate|exact IH].
  - now apply ReadFull_fuel in E.
Qed.

Lemma probe_length (file : bytes) (offset size : Z) (n : nat)
      (m : Z) (buf : bytes) :
  0 <= size -> probe file offset size n = Ok (m, buf) -> len buf = size.
Proof.
  intros Hsize. induction n as [|n IH]; cbn [probe]; [discriminate|].
  unfold Seek. destruct (offset <? 0) eqn:Eo; [discriminate|]. cbn [bind].
  apply Z.ltb_ge in Eo.
  destruct (ReadFull file offset size) as [raw| | |] eqn:E; cbn [bind];
    try discriminate.
  apply ReadFull_length in E; [|lia|lia].
  destruct (len _ <? 4); [discriminate|].
  destruct (Uint32 _ =? signature); [|exact IH].
  intros H. injection H as _ <-. unfold len in *.
  now rewrite DecodeXOR_length.
Qed.

Lemma offsets_loop_fuel (buf : bytes) :
  len buf + 4 < 4294967296 ->
  forall fuel pos offsets,
    0 <= pos <= len buf -> len buf - pos < Z.of_nat fuel ->
    offsets_loop fuel pos buf offsets <> OutOfFuel.
Proof.
  intros Hlen. induction fuel as [|fuel IH]; intros pos offsets Hpos Hfuel;
    [simpl in Hfuel; lia|].
  cbn [offsets_loop].
  assert (Hw : to_uint32 (pos + 4) = pos + 4)
    by (unfold to_uint32; apply Z.mod_small; lia).
  rewrite Hw.
  destruct (pos + 4 <? len buf) eqn:E; [|discriminate].
  apply Z.ltb_lt in E.
  destruct (_ =? 4294967295); [discriminate|].
  apply IH; lia.
Qed.

Lemma readOffsets_fuel (buf : bytes) :
  len buf + 4 < 4294967296 -> readOffsets buf <> OutOfFuel.
Proof.
  intros Hlen. unfold readOffsets.
  destruct (len buf <? 12); [discriminate|].
  destruct ((_ <? 12) || (len buf - 4 <=? _)) eqn:E; [discriminate|].
  apply orb_false_iff in E as [E1 E2].
  apply Z.ltb_ge in E1. apply Z.leb_gt in E2.
  destruct (negb _); [discriminate|].
  assert (Hw : to_uint32 (Uint32 (slice_from buf 8) + 1)
               = Uint32 (slice_from buf 8) + 1)
    by (unfold to_uint32; apply Z.mod_small; lia).
  rewrite Hw. apply offsets_loop_fuel; unfold len in *; lia.
Qed.

(** X15: [ReadPack] never stops for want of fuel: on every file it returns a
    reader or an error, or it panics. *)
Lemma ReadPack_returns (ParseFloat : bytes -> option float) (file : bytes) :
  ReadPack ParseFloat file <> OutOfFuel.
Proof.
  unfold ReadPack, ReadInt32.
  apply bind_fuel.
  { apply bind_fuel; [apply ReadFull_fuel|discriminate]. }
  intros offset _.
  apply bind_fuel.
  { apply bind_fuel; [apply ReadFull_fuel|discriminate]. }
  intros size Hsize.
  assert (Hrange : size < 2147483648).
  { destruct (ReadFull file 4 4) as [b| | |]; try discriminate.
    cbn [bind] in Hsize. injection Hsize as <-. apply to_int32_range. }
  destruct (size <? 0) eqn:E; [discriminate|]. apply Z.ltb_ge in E.
  apply bind_fuel; [apply probe_fuel|].
  intros [m buf] Hp. apply probe_length in Hp; [|exact E].
  apply bind_fuel; [apply readOffsets_fuel; lia|].
  intros offsets _.
  apply bind_fuel; [apply readHash_fuel_for|].
  intros [v rest] _. discriminate.
Qed.

(** ** The offset table, in general *)

Lemma removelast_length {A : Type} (l : list A) :
  length (removelast l) = pred (length l).
Proof. rewrite removelast_firstn_len, length_firstn. lia. Qed.

Lemma Uint32_removelast (buf : bytes) (pos : Z) :
  0 <= pos -> pos + 4 < len buf ->
  Uint32 (slice_from (removelast buf) pos) = Uint32 (slice_from buf pos).
Proof.
  intros Hpos Hlen. unfold Uint32, at_index, slice_from, len in *.
  rewrite removelast_firstn_len.
  assert (Hn : forall k, (k < 4)%nat ->
             nth k (skipn (Z.to_nat pos) (firstn (pred (length buf)) buf)) 0
             = nth k (skipn (Z.to_nat pos) buf) 0).
  { intros k Hk. rewrite !nth_skipn, nth_firstn.
    destruct (Nat.ltb_spec (Z.to_nat pos + k) (pred (length buf)));
      [reflexivity|lia]. }
  now rewrite !Hn by (simpl; lia).
Qed.

(** On a block of the size a container can have, the loop of
    [readOffsets] reads the table as described, stopping before the
    sentinel, except that it never looks at the last byte of the block:
    it is the described reading of the block without that byte. *)
Lemma offsets_loop_described (buf : bytes) :
  len buf + 4 < 4294967296 ->
  forall fuel pos offsets,
    0 <= pos <= len buf -> len buf - pos < Z.of_nat fuel ->
    offsets_loop fuel pos buf offsets
    = Ok (offsets ++ offsets_as_described fuel pos (removelast buf)).
Proof.
  intros Hlen. induction fuel as [|fuel IH]; intros pos offsets Hpos Hfuel;
    [simpl in Hfuel; lia|].
  cbn [offsets_loop offsets_as_described].
  assert (Hw : to_uint32 (pos + 4) = pos + 4)
    by (unfold to_uint32; apply Z.mod_small; lia).
  rewrite Hw.
  assert (Hrl : len (removelast buf) = Z.max 0 (len buf - 1))
    by (unfold len; rewrite removelast_length; lia).
  destruct (pos + 4 <? len buf) eqn:E;
    [apply Z.ltb_lt in E|apply Z.ltb_ge in E].
  - destruct (len (removelast buf) - pos <? 4) eqn:E';
      [apply Z.ltb_lt in E'; lia|].
    rewrite Uint32_removelast by lia.
    destruct (_ =? 4294967295); [now rewrite app_nil_r|].
    rewrite IH by lia. now rewrite <- app_assoc.
  - destruct (len (removelast buf) - pos <? 4) eqn:E';
      [now rewrite app_nil_r|apply Z.ltb_ge in E'; lia].
Qed.

(** X6: On a block that passes the header checks, [readOffsets] returns the
    table as described for the block without its last byte: the entries
    of four bytes from the byte after the marker on, in their order, up
    to the sentinel or to the last entry that ends before the last byte
    of the block. *)
Lemma readOffsets_described (buf : bytes) :
  len buf + 4 < 4294967296 ->
  12 <= len buf ->
  12 <= Uint32 (slice_from buf 8) < len buf - 4 ->
  at_index buf (Uint32 (slice_from buf 8)) = 7 ->
  readOffsets buf
  = Ok (offsets_as_described (S (length buf)) (Uint32 (slice_from buf 8) + 1)
          (removelast buf)).
Proof.
  intros Hlen H12 Hplo Hmark. unfold readOffsets.
  destruct (len buf <? 12) eqn:E; [apply Z.ltb_lt in E; lia|].
  destruct ((_ <? 12) || (len buf - 4 <=? _)) eqn:E1.
  { apply orb_true_iff in E1 as [E1|E1];
      [apply Z.ltb_lt in E1|apply Z.leb_le in E1]; lia. }
  rewrite Hmark. cbn [Z.eqb Pos.eqb negb].
  assert (Hw : to_uint32 (Uint32 (slice_from buf 8) + 1)
               = Uint32 (slice_from buf 8) + 1)
    by (unfold to_uint32; apply Z.mod_small; lia).
  rewrite Hw. rewrite offsets_loop_described; [reflexivity|lia| |];
    unfold len in *; lia.
Qed.

(** * Further properties of the reader and of the command *)

(** ** The cipher in closed form *)

Lemma xor_pass_nth (code : Z) (buf : bytes) :
  forall i prev k,
    (k < length buf)%nat ->
    nth k (xor_pass code i prev buf) 0
    = Z.lxor
        (Z.lxor (Z.lxor (nth k buf 0)
                        (at_index magicBytes (Z.land (i + Z.of_nat k) 0xf)))
                (to_byte ((i + Z.of_nat k) * code)))
        (match k with
         | O => prev
         | S k' =>
             Z.lxor (Z.lxor (nth k' buf 0)
                            (at_index magicBytes
                               (Z.land (i + Z.of_nat k') 0xf)))
                    (to_byte ((i + Z.of_nat k') * code))
         end).
Proof.
  induction buf as [|v rest IH]; intros i prev k Hk; [simpl in Hk; lia|].
  destruct k as [|k]; cbn [xor_pass nth].
  - now rewrite Z.add_0_r.
  - rewrite IH by (simpl in Hk; lia).
    replace (i + 1 + Z.of_nat k) with (i + Z.of_nat (S k)) by lia.
    destruct k as [|k]; cbn [nth].
    + now rewrite Z.add_0_r.
    + now replace (i + 1 + Z.of_nat k) with (i + Z.of_nat (S k)) by lia.
Qed.

Lemma xor_at_nth_same (c : Z) (buf : bytes) :
  forall i, (i < length buf)%nat ->
            nth i (xor_at c i buf) 0 = Z.lxor (nth i buf 0) c.
Proof.
  induction buf as [|v rest IH]; intros [|i] Hi; simpl in *; try lia; trivial.
  apply IH. lia.
Qed.

Ltac zbool_cases :=
  repeat match goal with
         | |- context [?x <? ?y] => destruct (Z.ltb_spec x y)
         | |- context [?x <=? ?y] => destruct (Z.leb_spec x y)
         | |- context [?x =? ?y] => destruct (Z.eqb_spec x y)
         end;
  cbn [andb orb negb]; try reflexivity; try lia.

Lemma pair_hit_past_end (i k L : Z) :
  L <= i + 1 -> pair_hit i k L = false.
Proof.
  intros H. unfold pair_hit.
  destruct (Z.leb_spec i k); [|reflexivity].
  destruct (Z.ltb_spec k L); [|reflexivity].
  assert (k = i) by lia. subst k.
  rewrite Z.sub_diag. change (0 mod 16) with 0. zbool_cases.
Qed.

Lemma pair_hit_step (i k L : Z) :
  i + 1 < L ->
  pair_hit i k L
  = ((k =? i) || (k =? i + 1)) || pair_hit (i + 16) k L.
Proof.
  intros HL. unfold pair_hit.
  replace (k - (i + 16)) with (k - i + (-1) * 16) by lia.
  rewrite Z.mod_add by lia.
  destruct (Z.lt_ge_cases k (i + 16)) as [Hlt|Hge].
  - destruct (Z.lt_ge_cases k i) as [Hlt'|Hge']; [zbool_cases|].
    rewrite (Z.mod_small (k - i) 16) by lia. zbool_cases.
  - zbool_cases.
Qed.

Lemma pair_hit_before (i k L : Z) : k < i -> pair_hit i k L = false.
Proof. intros H. unfold pair_hit. destruct (Z.leb_spec i k); [lia|reflexivity]. Qed.

Lemma pair_pass_nth (fuel : nat) :
  forall i buf k,
    0 <= i -> len buf - 1 - i <= 16 * Z.of_nat fuel ->
    (k < length buf)%nat ->
    nth k (pair_pass fuel i buf) 0
    = if pair_hit i (Z.of_nat k) (len buf)
      then Z.lxor (nth k buf 0) 0x0d else nth k buf 0.
Proof.
  induction fuel as [|fuel IH]; intros i buf k Hi Hfuel Hk.
  - cbn [pair_pass]. now rewrite pair_hit_past_end by lia.
  - cbn [pair_pass]. destruct (Z.ltb_spec (i + 1) (len buf)) as [HL|HL];
      [|now rewrite pair_hit_past_end by lia].
    assert (Hlen : forall b, len (xor_at 13 (Z.to_nat (i + 1))
                                   (xor_at 13 (Z.to_nat i) b)) = len b)
      by (intros b; unfold len; now rewrite !xor_at_length).
    rewrite IH; [|lia|rewrite Hlen; lia|now rewrite !xor_at_length].
    rewrite Hlen, (pair_hit_step i (Z.of_nat k) (len buf) HL).
    destruct (Z.eqb_spec (Z.of_nat k) i) as [E1|E1].
    + rewrite pair_hit_before by lia. cbn [orb].
      assert (k = Z.to_nat i) as -> by lia.
      rewrite xor_at_nth by lia. apply xor_at_nth_same. exact Hk.
    + destruct (Z.eqb_spec (Z.of_nat k) (i + 1)) as [E2|E2].
      * rewrite pair_hit_before by lia. cbn [orb].
        assert (k = Z.to_nat (i + 1)) as -> by lia.
        rewrite xor_at_nth_same by (rewrite xor_at_length; exact Hk).
        now rewrite xor_at_nth by lia.
      * cbn [orb]. now rewrite !xor_at_nth by lia.
Qed.

(** X1: Every byte that [DecodeXOR] leaves, in closed form: the keyed byte at
    its index, with the keyed byte before it (or, at index 0, with the
    length of the buffer as a byte), and, under every method but 0, with
    0x0d at the indices 5, 6, 21, 22, ... of the strides that fit. *)
Theorem DecodeXOR_byte (m : Z) (buf : bytes) (k : Z) :
  0 <= k < len buf ->
  at_index (DecodeXOR m buf) k
  = Z.lxor
      (Z.lxor (keyed m buf k)
              (if k =? 0 then to_byte (len buf) else keyed m buf (k - 1)))
      (if negb (m =? 0) && pair_hit 5 k (len buf) then 0x0d else 0).
Proof.
  intros Hk. unfold len in Hk.
  assert (H1 : nth (Z.to_nat k)
                 (xor_pass (xor_code m) 0 (to_byte (len buf)) buf) 0
               = Z.lxor (keyed m buf k)
                   (if k =? 0 then to_byte (len buf)
                    else keyed m buf (k - 1))).
  { rewrite xor_pass_nth by lia. unfold keyed, at_index.
    rewrite Z.add_0_l, Z2Nat.id by lia.
    destruct (Z.to_nat k) as [|k'] eqn:Ek.
    - assert (k = 0) as -> by lia. reflexivity.
    - destruct (Z.eqb_spec k 0) as [E|E]; [lia|].
      replace (Z.to_nat (k - 1)) with k' by lia.
      now replace (0 + Z.of_nat k') with (k - 1) by lia. }
  unfold DecodeXOR, at_index.
  destruct (negb (m =? 0)); cbn [andb].
  - rewrite pair_pass_nth;
      [|lia|unfold len; rewrite xor_pass_length; lia
       |rewrite xor_pass_length; lia].
    unfold len at 1. rewrite xor_pass_length, Z2Nat.id by lia.
    fold (len buf). rewrite H1.
    destruct (pair_hit 5 k (len buf)); [reflexivity|now rewrite Z.lxor_0_r].
  - now rewrite H1, Z.lxor_0_r.
Qed.

Lemma DecodeXOR_byte_witness :
  at_index (DecodeXOR 3 sample_raw_1) 5
  = Z.lxor
      (Z.lxor (keyed 3 sample_raw_1 5)
              (if 5 =? 0 then to_byte (len sample_raw_1)
               else keyed 3 sample_raw_1 (5 - 1)))
      (if negb (3 =? 0) && pair_hit 5 5 (len sample_raw_1) then 0x0d else 0).
Proof.
  apply (DecodeXOR_byte 3 sample_raw_1 5). vm_compute. split; congruence.
Defined.

(** ** The prober, continued *)

(** X2: No block of bytes shows the signature under both multipliers: of the
    methods 2 and 3 at most one deciphers a given directory block to a
    block that starts with 0x04030201. *)
Theorem signature_under_one_multiplier (raw : bytes) :
  all_bytes raw = true -> (4 <= length raw)%nat ->
  ~ (Uint32 (DecodeXOR 2 raw) = signature /\
     Uint32 (DecodeXOR 3 raw) = signature).
Proof.
  intros Hb Hl [H2 H3]. exact (signature_not_2_and_3 raw Hb Hl H2 H3).
Qed.

Lemma signature_under_one_multiplier_witness :
  ~ (Uint32 (DecodeXOR 2 sample_raw_1) = signature /\
     Uint32 (DecodeXOR 3 sample_raw_1) = signature).
Proof.
  apply signature_under_one_multiplier; [vm_compute; reflexivity|simpl; lia].
Defined.

Lemma ReadFull_negative (file : bytes) (pos n : Z) (raw : bytes) :
  n < 0 -> ReadFull file pos n = Ok raw -> raw = [].
Proof.
  intros Hn. unfold ReadFull.
  destruct (Z.eqb_spec n 0); [lia|].
  destruct (len file <=? pos); [discriminate|].
  destruct (len file - pos <? n); [discriminate|].
  intros H. injection H as <-.
  now replace (Z.to_nat n) with 0%nat by lia.
Qed.

Lemma probe_ok_inv (file : bytes) (offset size m : Z) (buf : bytes) :
  probe file offset size 4 = Ok (m, buf) ->
  (m = 2 \/ m = 3) /\
  0 <= offset /\ 4 <= size /\ len buf = size /\
  Uint32 buf = signature /\
  exists raw,
    ReadFull file offset size = Ok raw /\ buf = DecodeXOR m raw.
Proof.
  intros H. cbn [probe] in H. unfold Seek in H.
  destruct (Z.ltb_spec offset 0) as [Ho|Ho]; [discriminate|].
  cbn [bind] in H.
  destruct (ReadFull file offset size) as [raw| | |] eqn:Hr; try discriminate.
  cbn [bind] in H.
  change (Z.of_nat 3) with 3 in H. change (Z.of_nat 2) with 2 in H.
  change (Z.of_nat 1) with 1 in H. change (Z.of_nat 0) with 0 in H.
  assert (Hlen : forall k, len (DecodeXOR k raw) = len raw)
    by (intros k; unfold len; now rewrite DecodeXOR_length).
  rewrite !Hlen, DecodeXOR_1_3, <- Uint32_DecodeXOR_0_3 in H.
  rewrite (Uint32_DecodeXOR_0_3 raw) in H.
  destruct (Z.ltb_spec (len raw) 4) as [H4|H4]; [discriminate|].
  assert (Hsize : len raw = size).
  { destruct (Z.lt_ge_cases size 0) as [Hneg|Hpos].
    - apply (ReadFull_negative file offset size raw Hneg) in Hr.
      subst raw. unfold len in H4. simpl in H4. lia.
    - now apply (ReadFull_length file offset size raw Ho Hpos). }
  destruct (Z.eqb_spec (Uint32 (DecodeXOR 3 raw)) signature) as [E3|E3].
  { injection H as <- <-. rewrite Hlen.
    repeat split; auto; try lia. now exists raw. }
  destruct (Z.eqb_spec (Uint32 (DecodeXOR 2 raw)) signature) as [E2|E2];
    [|discriminate].
  injection H as <- <-. rewrite Hlen.
  repeat split; auto; try lia. now exists raw.
Qed.

(** X3: What a method that the prober selected guarantees: the method is 2
    or 3 (0 and 1 are never selected), the directory block was read in
    full from a non-negative offset, it has the declared size, which is
    at least 4, and the buffer handed on is that block deciphered with
    the selected method and starts with the signature. *)
Theorem probe_selected (file : bytes) (offset size m : Z) (buf : bytes) :
  probe file offset size 4 = Ok (m, buf) ->
  (m = 2 \/ m = 3) /\
  0 <= offset /\ 4 <= size /\ len buf = size /\
  Uint32 buf = signature /\
  exists raw,
    ReadFull file offset size = Ok raw /\ buf = DecodeXOR m raw.
Proof. exact (probe_ok_inv file offset size m buf). Qed.

Lemma probe_selected_witness :
  (3 = 2 \/ 3 = 3) /\
  0 <= 8 /\ 4 <= 67 /\ len sample_block = 67 /\
  Uint32 sample_block = signature /\
  exists raw,
    ReadFull (container sample_raw_1) 8 67 = Ok raw /\
    sample_block = DecodeXOR 3 raw.
Proof.
  apply (probe_selected (container sample_raw_1) 8 67 3 sample_block).
  vm_compute. reflexivity.
Defined.

(** ** The offset table, continued *)

Lemma offsets_loop_no_error (buf : bytes) (e : error) :
  forall fuel pos offsets, offsets_loop fuel pos buf offsets <> Err e.
Proof.
  induction fuel as [|fuel IH]; intros pos offsets; cbn [offsets_loop];
    [discriminate|].
  destruct (_ <? len buf); [|discriminate].
  destruct (_ =? 4294967295); [discriminate|apply IH].
Qed.

Lemma readOffsets_error_cases (buf : bytes) :
  let plo := Uint32 (slice_from buf 8) in
  (readOffsets buf = Err errTooShort <-> len buf < 12) /\
  (readOffsets buf = Err errPloOutOfRange
   <-> 12 <= len buf /\ (plo < 12 \/ len buf - 4 <= plo)) /\
  (readOffsets buf = Err errCannotFindPlo
   <-> 12 <= len buf /\ 12 <= plo < len buf - 4 /\ at_index buf plo <> 7) /\
  (forall e, readOffsets buf = Err e ->
             e = errTooShort \/ e = errPloOutOfRange \/ e = errCannotFindPlo).
Proof.
  intros plo. unfold readOffsets. fold plo.
  destruct (Z.ltb_spec (len buf) 12) as [H12|H12].
  { repeat split; intros; auto; try discriminate; try lia.
    injection H as <-. auto. }
  destruct (Z.ltb_spec plo 12) as [Hp|Hp]; cbn [orb].
  { repeat split; intros; auto; try discriminate; try lia.
    injection H as <-. auto. }
  destruct (Z.leb_spec (len buf - 4) plo) as [Hq|Hq].
  { repeat split; intros; auto; try discriminate; try lia.
    injection H as <-. auto. }
  destruct (Z.eqb_spec (at_index buf plo) 7) as [Hm|Hm]; cbn [negb].
  - repeat split; intros; try lia; try contradiction;
      now apply offsets_loop_no_error in H.
  - repeat split; intros; auto; try discriminate; try lia.
    injection H as <-. auto.
Qed.

(** X4: The three errors of [readOffsets], each with the exact condition
    under which it is returned; there is no other error. *)
Theorem readOffsets_errors (buf : bytes) :
  let plo := Uint32 (slice_from buf 8) in
  (readOffsets buf = Err errTooShort <-> len buf < 12) /\
  (readOffsets buf = Err errPloOutOfRange
   <-> 12 <= len buf /\ (plo < 12 \/ len buf - 4 <= plo)) /\
  (readOffsets buf = Err errCannotFindPlo
   <-> 12 <= len buf /\ 12 <= plo < len buf - 4 /\ at_index buf plo <> 7) /\
  (forall e, readOffsets buf = Err e ->
             e = errTooShort \/ e = errPloOutOfRange \/ e = errCannotFindPlo).
Proof. exact (readOffsets_error_cases buf). Qed.

Lemma at_index_byte (buf : bytes) (i : Z) :
  all_bytes buf = true -> 0 <= at_index buf i < 256.
Proof.
  intros Hb. unfold at_index.
  destruct (nth_in_or_default (Z.to_nat i) buf 0) as [Hin| ->]; [|lia].
  unfold all_bytes in Hb. rewrite forallb_forall in Hb.
  now apply is_byte_iff, Hb.
Qed.

Lemma Uint32_any_range (buf : bytes) :
  all_bytes buf = true -> 0 <= Uint32 buf < 4294967296.
Proof.
  intros Hb. unfold Uint32.
  pose proof (at_index_byte buf 0 Hb). pose proof (at_index_byte buf 1 Hb).
  pose proof (at_index_byte buf 2 Hb). pose proof (at_index_byte buf 3 Hb).
  rewrite (lor_shiftl_add (at_index buf 0) (at_index buf 1) 8) by lia.
  rewrite (lor_shiftl_add _ (at_index buf 2) 16) by lia.
  rewrite (lor_shiftl_add _ (at_index buf 3) 24) by lia.
  lia.
Qed.

Lemma all_bytes_skipn (buf : bytes) :
  forall n, all_bytes buf = true -> all_bytes (skipn n buf) = true.
Proof.
  induction buf as [|b rest IH]; intros [|n] Hb; simpl; trivial.
  apply IH. now apply all_bytes_cons in Hb.
Qed.

Lemma offsets_loop_no_sentinel (buf : bytes) :
  all_bytes buf = true ->
  forall fuel pos offsets l,
    offsets_loop fuel pos buf offsets = Ok l ->
    ~ In (-1) offsets -> ~ In (-1) l.
Proof.
  intros Hb. induction fuel as [|fuel IH]; intros pos offsets l;
    cbn [offsets_loop]; [discriminate|].
  destruct (_ <? len buf); [|intros H; now injection H as <-].
  destruct (Z.eqb_spec (Uint32 (slice_from buf pos)) 4294967295) as [E|E];
    [intros H; now injection H as <-|].
  intros H Hacc. apply (IH _ _ _ H).
  intros Hin. apply in_app_or in Hin as [Hin|[Hin|[]]]; [auto|].
  pose proof (Uint32_any_range (slice_from buf pos)
                (all_bytes_skipn buf _ Hb)) as Hr.
  unfold to_int32 in Hin. rewrite Z.mod_small in Hin by lia.
  destruct (_ <? 2147483648) eqn:E'; [apply Z.ltb_lt in E'|]; lia.
Qed.

(** X5: The sentinel is never taken for an entry: the table that
    [readOffsets] returns for a block of bytes does not hold -1, the
    value 0xffffffff has as an [int32]. *)
Theorem readOffsets_no_sentinel (buf : bytes) (table : list Z) :
  all_bytes buf = true -> readOffsets buf = Ok table -> ~ In (-1) table.
Proof.
  intros Hb. unfold readOffsets.
  destruct (len buf <? 12); [discriminate|].
  destruct (_ || _); [discriminate|].
  destruct (negb _); [discriminate|].
  intros H. apply (offsets_loop_no_sentinel buf Hb _ _ _ _ H). intros [].
Qed.

Lemma readOffsets_no_sentinel_witness :
  ~ In (-1) [57; 59; 62; 64].
Proof.
  apply (readOffsets_no_sentinel sample_block); vm_compute; reflexivity.
Defined.

Lemma readOffsets_described_witness :
  readOffsets sample_block
  = Ok (offsets_as_described (S (length sample_block))
          (Uint32 (slice_from sample_block 8) + 1) (removelast sample_block)).
Proof.
  apply readOffsets_described; vm_compute;
    try reflexivity; try discriminate; split; [discriminate|reflexivity].
Defined.

Lemma offsets_loop_bound (buf : bytes) :
  len buf + 4 < 4294967296 ->
  forall fuel pos offsets l,
    0 <= pos <= len buf ->
    offsets_loop fuel pos buf offsets = Ok l ->
    len l = len offsets \/
    pos + 4 * (len l - len offsets) < len buf.
Proof.
  intros Hlen. induction fuel as [|fuel IH]; intros pos offsets l Hpos;
    cbn [offsets_loop]; [discriminate|].
  assert (Hw : to_uint32 (pos + 4) = pos + 4)
    by (unfold to_uint32; apply Z.mod_small; lia).
  rewrite Hw.
  destruct (Z.ltb_spec (pos + 4) (len buf)) as [E|E];
    [|intros H; injection H as <-; now left].
  destruct (_ =? 4294967295); [intros H; injection H as <-; now left|].
  intros H. apply IH in H; [|lia].
  unfold len in *. rewrite length_app in H. cbn [length] in H. right.
  destruct H as [H|H]; lia.
Qed.

(** X7: The table lies inside the block: with [plo] the table position and
    [n] the number of entries returned, [plo + 1 + 4 * n] is below the
    length of the block. *)
Theorem readOffsets_bound (buf : bytes) (table : list Z) :
  len buf + 4 < 4294967296 ->
  readOffsets buf = Ok table ->
  12 <= Uint32 (slice_from buf 8) /\
  Uint32 (slice_from buf 8) + 1 + 4 * len table < len buf.
Proof.
  intros Hlen. unfold readOffsets.
  destruct (len buf <? 12); [discriminate|].
  destruct (Z.ltb_spec (Uint32 (slice_from buf 8)) 12) as [Hp|Hp];
    [discriminate|].
  destruct (Z.leb_spec (len buf - 4) (Uint32 (slice_from buf 8))) as [Hq|Hq];
    [discriminate|].
  cbn [orb]. destruct (negb _); [discriminate|].
  assert (Hw : to_uint32 (Uint32 (slice_from buf 8) + 1)
               = Uint32 (slice_from buf 8) + 1)
    by (unfold to_uint32; apply Z.mod_small; lia).
  rewrite Hw. intros H. apply offsets_loop_bound in H; [|exact Hlen|lia].
  split; [exact Hp|]. unfold len in *. cbn [length] in H. lia.
Qed.

Lemma readOffsets_bound_witness :
  12 <= Uint32 (slice_from sample_block 8) /\
  Uint32 (slice_from sample_block 8) + 1 + 4 * len [57; 59; 62; 64]
  < len sample_block.
Proof.
  apply readOffsets_bound; vm_compute; reflexivity.
Defined.

(** ** The decoded tree and the bytes it took *)

Lemma wire_size_hash (hash : HashEntries) :
  wire_size (VHash hash) = 6 + entries_size hash.
Proof. reflexivity. Qed.

Lemma wire_size_array (array : list Value) :
  wire_size (VArray array) = 6 + values_size array.
Proof. reflexivity. Qed.

Lemma entries_size_app (h1 h2 : HashEntries) :
  entries_size (h1 ++ h2) = entries_size h1 + entries_size h2.
Proof.
  induction h1 as [|e rest IH]; [reflexivity|].
  cbn [app entries_size fold_right]. fold (entries_size (rest ++ h2)).
  fold (entries_size rest). rewrite IH. lia.
Qed.

Lemma values_size_app (a1 a2 : list Value) :
  values_size (a1 ++ a2) = values_size a1 + values_size a2.
Proof.
  induction a1 as [|x rest IH]; [reflexivity|].
  cbn [app values_size fold_right]. fold (values_size (rest ++ a2)).
  fold (values_size rest). rewrite IH. lia.
Qed.

Lemma insert_entry_perm (e : bytes * Value) (hash : HashEntries) :
  Permutation (e :: hash) (insert_entry e hash).
Proof.
  induction hash as [|e' rest IH]; simpl; [apply Permutation_refl|].
  destruct (str_ltb (fst e) (fst e')); [apply Permutation_refl|].
  apply perm_trans with (e' :: e :: rest); [apply perm_swap|].
  now apply perm_skip.
Qed.

(** Sorting keeps every entry, duplicates of a key included. *)
Lemma sortSlice_perm (hash : HashEntries) : Permutation hash (sortSlice hash).
Proof.
  induction hash as [|e rest IH]; simpl; [apply perm_nil|].
  apply perm_trans with (e :: sortSlice rest); [now apply perm_skip|].
  apply insert_entry_perm.
Qed.

Lemma entries_size_perm (h1 h2 : HashEntries) :
  Permutation h1 h2 -> entries_size h1 = entries_size h2.
Proof.
  induction 1 as [|e l l' _ IH|e e' l|l l' l'' _ IH1 _ IH2];
    cbn [entries_size fold_right]; try fold (entries_size l);
    try fold (entries_size l'); try lia.
Qed.

Lemma len_cons {A : Type} (x : A) (l : list A) : len (x :: l) = 1 + len l.
Proof. unfold len. cbn [length]. lia. Qed.

Lemma len_app {A : Type} (l1 l2 : list A) : len (l1 ++ l2) = len l1 + len l2.
Proof. unfold len. rewrite length_app. lia. Qed.

Lemma readInt_len (buf : bytes) (x : Z) (rest : bytes) :
  readInt buf = Ok (x, rest) -> len buf = 4 + len rest.
Proof. intros H. apply readInt_length in H. unfold len. lia. Qed.

Section DecodedTree.

Variable ParseFloat : bytes -> option float.
Variable table : list Z.

Lemma decoder_sizes (fuel : nat) :
  (forall buf orig v rest,
      readValue ParseFloat table fuel buf orig = Ok (v, rest) ->
      len buf = len rest + wire_size v) /\
  (forall buf orig v rest,
      readHash ParseFloat table fuel buf orig = Ok (v, rest) ->
      len buf = len rest + wire_size v) /\
  (forall i n buf orig acc h rest,
      readHashEntries ParseFloat table fuel i n buf orig acc = Ok (h, rest) ->
      exists new,
        h = acc ++ new /\ len new = Z.max 0 (n - i) /\
        len buf = len rest + entries_size new) /\
  (forall i n buf orig acc a rest,
      readArrayEntries ParseFloat table fuel i n buf orig acc = Ok (a, rest) ->
      exists new,
        a = acc ++ new /\ len new = Z.max 0 (n - i) /\
        len buf = len rest + values_size new).
Proof.
  induction fuel as [|fuel (IHv & IHh & IHhe & IHae)].
  - repeat split; intros until rest; simpl; try discriminate;
      (destruct (Z.ltb_spec i n) as [Hin|Hin]; [discriminate|]);
      intros H; injection H as <- <-; exists [];
      rewrite app_nil_r; repeat split; cbn; lia.
  - repeat split; intros until rest; unfold_decoder; intros H.
    + destruct buf as [|typ buf']; [discriminate|]. rewrite len_cons.
      destruct (typ =? NullType);
        [injection H as <- <-; cbn [wire_size]; lia|].
      destruct (typ =? HashType);
        [apply IHh in H; now rewrite len_cons in H|].
      destruct (typ =? ArrayType).
      { bind_inv H as ([n b1] & Hn & H). apply readInt_len in Hn.
        destruct (n <? 0); [discriminate|].
        bind_inv H as ([arr b2] & Ha & H).
        apply IHae in Ha as (new & -> & _ & Hsz).
        bind_inv H as ([t b3] & Ht & H). apply readByte_ok in Ht as ->.
        destruct (negb (t =? ArrayType)); [discriminate|].
        injection H as <- <-. rewrite len_cons in Hsz.
        rewrite wire_size_array. cbn [app]. lia. }
      destruct (typ =? StringType).
      { bind_inv H as ([ofs b1] & Hn & H). apply readInt_len in Hn.
        bind_inv H as (s & Hs & H). injection H as <- <-.
        cbn [wire_size]. lia. }
      destruct ((typ =? DoubleType) || (typ =? IntegerType)); [|discriminate].
      bind_inv H as ([ofs b1] & Hn & H). apply readInt_len in Hn.
      bind_inv H as (num & Hs & H).
      destruct (typ =? IntegerType);
        [destruct (ParseInt num)|destruct (ParseFloat num)];
        try discriminate; injection H as <- <-; cbn [wire_size]; lia.
    + bind_inv H as ([t b1] & Ht & H). apply readByte_ok in Ht as ->.
      destruct (negb (t =? HashType)); [discriminate|].
      bind_inv H as ([n b2] & Hn & H). apply readInt_len in Hn.
      destruct (n =? 0); [discriminate|].
      destruct (n <? 0); [discriminate|].
      bind_inv H as ([hash b3] & Hh & H).
      apply IHhe in Hh as (new & -> & _ & Hsz).
      bind_inv H as ([t' b4] & Ht & H). apply readByte_ok in Ht as ->.
      destruct (negb (t' =? HashType)); [discriminate|].
      injection H as <- <-. rewrite !len_cons in *.
      rewrite wire_size_hash, <- (entries_size_perm _ _ (sortSlice_perm _)).
      cbn [app]. lia.
    + destruct (Z.ltb_spec i n) as [Hin|Hin].
      * bind_inv H as ([ofs b1] & Hn & H). apply readInt_len in Hn.
        bind_inv H as (key & Hk & H).
        bind_inv H as ([entry b2] & He & H). apply IHv in He.
        apply IHhe in H as (new & -> & Hnew & Hsz).
        exists ((key, entry) :: new). rewrite <- app_assoc.
        split; [reflexivity|]. rewrite len_cons.
        cbn [entries_size fold_right snd]. fold (entries_size new).
        split; lia.
      * injection H as <- <-. exists []. rewrite app_nil_r.
        repeat split; cbn; lia.
    + destruct (Z.ltb_spec i n) as [Hin|Hin].
      * bind_inv H as ([value b1] & He & H). apply IHv in He.
        apply IHae in H as (new & -> & Hnew & Hsz).
        exists (value :: new). rewrite <- app_assoc.
        split; [reflexivity|]. rewrite len_cons.
        cbn [values_size fold_right]. fold (values_size new).
        split; lia.
      * injection H as <- <-. exists []. rewrite app_nil_r.
        repeat split; cbn; lia.
Qed.

(** X8: A value takes exactly the bytes of its wire form: one for Null, five
    for a String, an Integer or a Double, and for a Hash or an Array the
    tag, the count, the entries and the terminator.  So the decoder never
    returns more values than bytes it has read. *)
Theorem readValue_wire_size (fuel : nat) (buf orig : bytes)
        (v : Value) (rest : bytes) :
  readValue ParseFloat table fuel buf orig = Ok (v, rest) ->
  len buf = len rest + wire_size v.
Proof. apply (proj1 (decoder_sizes fuel)). Qed.

Lemma decoder_counts (fuel : nat) (n : Z) (buf1 buf2 orig : bytes) :
  readInt buf1 = Ok (n, buf2) ->
  (forall v rest,
      readHash ParseFloat table (S fuel) (HashType :: buf1) orig = Ok (v, rest) ->
      exists wire hash buf3,
        readHashEntries ParseFloat table fuel 0 n buf2 orig [] = Ok (wire, buf3) /\
        v = VHash hash /\ Permutation wire hash /\ key_sorted hash /\
        len hash = n /\ 0 < n) /\
  (forall v rest,
      readValue ParseFloat table (S fuel) (ArrayType :: buf1) orig = Ok (v, rest) ->
      exists array buf3,
        readArrayEntries ParseFloat table fuel 0 n buf2 orig [] = Ok (array, buf3) /\
        v = VArray array /\ len array = n).
Proof.
  intros Hn. split; intros v rest; unfold_decoder.
  - cbn [readByte bind]. change (HashType =? HashType) with true. cbn [negb].
    rewrite Hn. cbn [bind].
    destruct (Z.eqb_spec n 0) as [E0|E0]; [discriminate|].
    destruct (Z.ltb_spec n 0) as [E1|E1]; [discriminate|].
    intros H. bind_inv H as ([wire b3] & Hh & H).
    bind_inv H as ([t b4] & Ht & H).
    destruct (negb (t =? HashType)); [discriminate|].
    injection H as <- _.
    exists wire, (sortSlice wire), b3.
    split; [exact Hh|]. split; [reflexivity|].
    split; [apply sortSlice_perm|]. split; [apply sortSlice_sorted|].
    apply (proj1 (proj2 (proj2 (decoder_sizes fuel)))) in Hh
      as (new & Hnew & Hlen & _).
    cbn [app] in Hnew. subst new.
    unfold len in *.
    rewrite <- (Permutation_length (sortSlice_perm wire)). lia.
  - change (ArrayType =? NullType) with false.
    change (ArrayType =? HashType) with false.
    change (ArrayType =? ArrayType) with true. cbv iota.
    rewrite Hn. cbn [bind].
    destruct (Z.ltb_spec n 0) as [E1|E1]; [discriminate|].
    intros H. bind_inv H as ([array b3] & Ha & H).
    bind_inv H as ([t b4] & Ht & H).
    destruct (negb (t =? ArrayType)); [discriminate|].
    injection H as <- _. exists array, b3.
    split; [exact Ha|]. split; [reflexivity|].
    apply (proj2 (proj2 (proj2 (decoder_sizes fuel)))) in Ha
      as (new & Hnew & Hlen & _).
    cbn [app] in Hnew. subst new. lia.
Qed.

(** X9: The counts are kept: a decoded hash has as many entries as its count
    says, at least one, and they are the entries in the order of the
    wire, rearranged so that the keys ascend, none dropped and none
    merged; a decoded array has as many elements as its count says. *)
Theorem decoded_counts (fuel : nat) (n : Z) (buf1 buf2 orig : bytes) :
  readInt buf1 = Ok (n, buf2) ->
  (forall v rest,
      readHash ParseFloat table (S fuel) (HashType :: buf1) orig = Ok (v, rest) ->
      exists wire hash buf3,
        readHashEntries ParseFloat table fuel 0 n buf2 orig [] = Ok (wire, buf3) /\
        v = VHash hash /\ Permutation wire hash /\ key_sorted hash /\
        len hash = n /\ 0 < n) /\
  (forall v rest,
      readValue ParseFloat table (S fuel) (ArrayType :: buf1) orig = Ok (v, rest) ->
      exists array buf3,
        readArrayEntries ParseFloat table fuel 0 n buf2 orig [] = Ok (array, buf3) /\
        v = VArray array /\ len array = n).
Proof. exact (decoder_counts fuel n buf1 buf2 orig). Qed.

(** X10: The tag is kept: the first byte of the wire form of a decoded value
    is the type the value reports. *)
Theorem readValue_type_tag (fuel : nat) (buf orig : bytes)
        (v : Value) (rest : bytes) :
  readValue ParseFloat table fuel buf orig = Ok (v, rest) ->
  exists tail, buf = Type_ v :: tail.
Proof.
  destruct fuel as [|fuel]; [discriminate|]. unfold_decoder.
  destruct buf as [|typ buf']; [discriminate|].
  destruct (Z.eqb_spec typ NullType) as [->|_];
    [intros H; injection H as <- _; now exists buf'|].
  destruct (Z.eqb_spec typ HashType) as [->|_].
  { intros H. apply readHash_sorted in H as (hash & -> & _). now exists buf'. }
  destruct (Z.eqb_spec typ ArrayType) as [->|_].
  { intros H. bind_inv H as ([n b1] & _ & H).
    destruct (n <? 0); [discriminate|].
    bind_inv H as ([arr b2] & _ & H). bind_inv H as ([t b3] & _ & H).
    destruct (negb _); [discriminate|]. injection H as <- _. now exists buf'. }
  destruct (Z.eqb_spec typ StringType) as [->|_].
  { intros H. bind_inv H as ([ofs b1] & _ & H). bind_inv H as (s & _ & H).
    injection H as <- _. now exists buf'. }
  destruct (Z.eqb_spec typ DoubleType) as [->|_]; cbn [orb].
  { intros H. bind_inv H as ([ofs b1] & _ & H). bind_inv H as (s & _ & H).
    change (DoubleType =? IntegerType) with false in H. cbv iota in H.
    destruct (ParseFloat s); [|discriminate].
    injection H as <- _. now exists buf'. }
  destruct (Z.eqb_spec typ IntegerType) as [->|_]; [|discriminate].
  intros H. bind_inv H as ([ofs b1] & _ & H). bind_inv H as (s & _ & H).
  destruct (ParseInt s); [|discriminate].
  injection H as <- _. now exists buf'.
Qed.

End DecodedTree.

Lemma deep_sorted_hash (hash : HashEntries) :
  deep_sorted (VHash hash)
  <-> key_sorted hash /\ Forall (fun e => deep_sorted (snd e)) hash.
Proof.
  cbn [deep_sorted]. apply and_iff_compat_l.
  induction hash as [|e rest IH]; [split; auto|].
  rewrite Forall_cons_iff, <- IH. reflexivity.
Qed.

Lemma deep_sorted_array (array : list Value) :
  deep_sorted (VArray array) <-> Forall deep_sorted array.
Proof.
  cbn [deep_sorted].
  induction array as [|x rest IH]; [split; auto|].
  rewrite Forall_cons_iff, <- IH. reflexivity.
Qed.

Section DeepSorted.

Variable ParseFloat : bytes -> option float.
Variable table : list Z.

Lemma decoder_deep_sorted (fuel : nat) :
  (forall buf orig v rest,
      readValue ParseFloat table fuel buf orig = Ok (v, rest) ->
      deep_sorted v) /\
  (forall buf orig v rest,
      readHash ParseFloat table fuel buf orig = Ok (v, rest) ->
      deep_sorted v) /\
  (forall i n buf orig acc h rest,
      readHashEntries ParseFloat table fuel i n buf orig acc = Ok (h, rest) ->
      Forall (fun e => deep_sorted (snd e)) acc ->
      Forall (fun e => deep_sorted (snd e)) h) /\
  (forall i n buf orig acc a rest,
      readArrayEntries ParseFloat table fuel i n buf orig acc = Ok (a, rest) ->
      Forall deep_sorted acc -> Forall deep_sorted a).
Proof.
  induction fuel as [|fuel (IHv & IHh & IHhe & IHae)].
  - repeat split; intros until rest; simpl; try discriminate;
      (destruct (i <? n); [discriminate|]);
      intros H; now injection H as <- _.
  - repeat split; intros until rest; unfold_decoder; intros H.
    + destruct buf as [|typ buf']; [discriminate|].
      destruct (typ =? NullType); [now injection H as <- _|].
      destruct (typ =? HashType); [now apply IHh in H|].
      destruct (typ =? ArrayType).
      { bind_inv H as ([n b1] & _ & H). destruct (n <? 0); [discriminate|].
        bind_inv H as ([arr b2] & Ha & H). bind_inv H as ([t b3] & _ & H).
        destruct (negb _); [discriminate|]. injection H as <- _.
        apply deep_sorted_array. apply (IHae _ _ _ _ _ _ _ Ha). constructor. }
      destruct (typ =? StringType).
      { bind_inv H as ([ofs b1] & _ & H). bind_inv H as (s & _ & H).
        now injection H as <- _. }
      destruct ((typ =? DoubleType) || (typ =? IntegerType)); [|discriminate].
      bind_inv H as ([ofs b1] & _ & H). bind_inv H as (num & _ & H).
      destruct (typ =? IntegerType);
        [destruct (ParseInt num)|destruct (ParseFloat num)];
        try discriminate; now injection H as <- _.
    + bind_inv H as ([t b1] & _ & H).
      destruct (negb (t =? HashType)); [discriminate|].
      bind_inv H as ([n b2] & _ & H).
      destruct (n =? 0); [discriminate|]. destruct (n <? 0); [discriminate|].
      bind_inv H as ([hash b3] & Hh & H). bind_inv H as ([t' b4] & _ & H).
      destruct (negb _); [discriminate|]. injection H as <- _.
      apply deep_sorted_hash. split; [apply sortSlice_sorted|].
      apply (Permutation_Forall (sortSlice_perm hash)).
      apply (IHhe _ _ _ _ _ _ _ Hh). constructor.
    + intros Hacc. destruct (i <? n); [|now injection H as <- _].
      bind_inv H as ([ofs b1] & _ & H). bind_inv H as (key & _ & H).
      bind_inv H as ([entry b2] & He & H). apply IHv in He.
      apply (IHhe _ _ _ _ _ _ _ H). apply Forall_app. split; [exact Hacc|].
      now constructor.
    + intros Hacc. destruct (i <? n); [|now injection H as <- _].
      bind_inv H as ([value b1] & He & H). apply IHv in He.
      apply (IHae _ _ _ _ _ _ _ H). apply Forall_app. split; [exact Hacc|].
      now constructor.
Qed.

(** X11: Every hash of a decoded tree, at every depth, is sorted by key: the
    binary search of [Find] is sound on whatever the decoder returns and
    on whatever is found inside it. *)
Theorem readValue_deep_sorted (fuel : nat) (buf orig : bytes)
        (v : Value) (rest : bytes) :
  readValue ParseFloat table fuel buf orig = Ok (v, rest) -> deep_sorted v.
Proof. apply (proj1 (decoder_deep_sorted fuel)). Qed.

End DeepSorted.

(** ** [ReadPack], from the header to the tree *)

Lemma wire_size_pos : forall v, 1 <= wire_size v.
Proof.
  fix IH 1. intros [|hash|array|s|z|d]; cbn [wire_size]; try lia.
  - assert (H : 0 <= entries_size hash).
    { induction hash as [|e rest IHr]; cbn [entries_size fold_right]; [lia|].
      fold (entries_size rest). specialize (IH (snd e)). lia. }
    change (1 <= 6 + entries_size hash). lia.
  - assert (H : 0 <= values_size array).
    { induction array as [|x rest IHr]; cbn [values_size fold_right]; [lia|].
      fold (values_size rest). specialize (IH x). lia. }
    change (1 <= 6 + values_size array). lia.
Qed.

Lemma entries_size_nonneg (hash : HashEntries) : 0 <= entries_size hash.
Proof.
  induction hash as [|e rest IH]; cbn [entries_size fold_right]; [lia|].
  fold (entries_size rest). pose proof (wire_size_pos (snd e)). lia.
Qed.

Lemma readHash_nonempty (ParseFloat : bytes -> option float) (table : list Z)
      (fuel : nat) (buf orig : bytes) (v : Value) (rest : bytes) :
  readHash ParseFloat table fuel buf orig = Ok (v, rest) ->
  exists hash, v = VHash hash /\ hash <> [].
Proof.
  destruct fuel as [|fuel]; [discriminate|]. intros H.
  assert (H' := H). revert H'. unfold_decoder. intros H'.
  bind_inv H' as ([t b1] & Ht & H'). apply readByte_ok in Ht as ->.
  destruct (Z.eqb_spec t HashType) as [->|]; [|discriminate]. cbn [negb] in H'.
  bind_inv H' as ([n b2] & Hn & _).
  destruct (proj1 (decoder_counts ParseFloat table fuel n b1 b2 orig Hn)
              v rest H) as (wire & hash & b3 & _ & -> & _ & _ & Hlen & Hpos).
  exists hash. split; [reflexivity|]. intros ->. unfold len in Hlen.
  simpl in Hlen. lia.
Qed.

(** X12: What a reader that [ReadPack] returned guarantees: the two header
    fields were read, the directory block was read in full from a
    non-negative offset and is at least 23 bytes long, the method is 2 or
    3, the block deciphered with it starts with the signature, the table
    of the reader is the offset table of that block, and the entries are
    a hash that is not empty and sorted at every depth. *)
Theorem ReadPack_ok (ParseFloat : bytes -> option float) (file : bytes)
        (r : Reader) :
  ReadPack ParseFloat file = Ok r ->
  exists offset size raw hash,
    ReadInt32 file 0 = Ok offset /\ ReadInt32 file 4 = Ok size /\
    0 <= offset /\ 23 <= size /\
    ReadFull file offset size = Ok raw /\
    (method r = 2 \/ method r = 3) /\
    Uint32 (DecodeXOR (method r) raw) = signature /\
    readOffsets (DecodeXOR (method r) raw) = Ok (offsets r) /\
    entries r = VHash hash /\ hash <> [] /\ deep_sorted (entries r).
Proof.
  unfold ReadPack. intros H.
  bind_inv H as (offset & Hoff & H). bind_inv H as (size & Hsize & H).
  destruct (size <? 0); [discriminate|].
  bind_inv H as ([m buf] & Hp & H).
  apply probe_ok_inv in Hp as (Hm & Ho & H4 & Hlen & Hsig & raw & Hr & ->).
  bind_inv H as (table & Ht & H). bind_inv H as ([v rest] & Hh & H).
  injection H as <-. cbn [method offsets entries].
  destruct (readHash_nonempty _ _ _ _ _ _ _ Hh) as (hash & Hv & Hne).
  exists offset, size, raw, hash.
  repeat split; auto.
  - pose proof (proj1 (proj2 (decoder_sizes ParseFloat table _)) _ _ _ _ Hh)
      as Hsz.
    subst v. rewrite wire_size_hash in Hsz.
    destruct hash as [|e hash]; [congruence|].
    cbn [entries_size fold_right] in Hsz. fold (entries_size hash) in Hsz.
    pose proof (wire_size_pos (snd e)) as Hw.
    pose proof (entries_size_nonneg hash) as He.
    destruct (proj1 (readOffsets_error_cases (DecodeXOR m raw))) as [_ H12].
    assert (12 <= len (DecodeXOR m raw)).
    { destruct (Z.lt_ge_cases (len (DecodeXOR m raw)) 12) as [Hlt|]; [|lia].
      rewrite (H12 Hlt) in Ht. discriminate. }
    unfold len, slice_from in *. rewrite length_skipn in Hsz. lia.
  - apply (proj1 (proj2 (decoder_deep_sorted ParseFloat table _)) _ _ _ _ Hh).
Qed.

Lemma ReadPack_ok_witness :
  exists offset size raw hash,
    ReadInt32 (container sample_raw_1) 0 = Ok offset /\
    ReadInt32 (container sample_raw_1) 4 = Ok size /\
    0 <= offset /\ 23 <= size /\
    ReadFull (container sample_raw_1) offset size = Ok raw /\
    (3 = 2 \/ 3 = 3) /\
    Uint32 (DecodeXOR 3 raw) = signature /\
    readOffsets (DecodeXOR 3 raw) = Ok [57; 59; 62; 64] /\
    VHash [(str "a", VInteger 42); (str "b", VString (str "hi"))] = VHash hash /\
    hash <> [] /\
    deep_sorted (VHash [(str "a", VInteger 42); (str "b", VString (str "hi"))]).
Proof.
  apply (ReadPack_ok no_floats (container sample_raw_1)
           (mkReader 3 [57; 59; 62; 64]
              (VHash [(str "a", VInteger 42); (str "b", VString (str "hi"))]))).
  vm_compute. reflexivity.
Defined.

(** X13: A file that ends inside the header: [ReadPack] returns [io.EOF] when
    the file ends exactly where a field starts (0 or 4 bytes), and
    [io.ErrUnexpectedEOF] when it ends inside a field. *)
Theorem ReadPack_short_header (ParseFloat : bytes -> option float)
        (file : bytes) :
  len file < 8 ->
  ReadPack ParseFloat file
  = Err (if (len file =? 0) || (len file =? 4)
         then errEOF else errUnexpectedEOF).
Proof.
  intros H8. unfold ReadPack, ReadInt32, ReadFull.
  cbn [Z.eqb]. rewrite !Z.sub_0_r.
  destruct (Z.leb_spec (len file) 0) as [H0|H0].
  { assert (len file = 0) as -> by (unfold len in *; lia). reflexivity. }
  destruct (Z.ltb_spec (len file) 4) as [H4|H4].
  { cbn [bind]. zbool_cases. }
  cbn [bind].
  destruct (Z.leb_spec (len file) 4) as [H4'|H4'].
  { assert (len file = 4) as -> by lia. reflexivity. }
  destruct (Z.ltb_spec (len file - 4) 4) as [H5|H5]; [|lia].
  cbn [bind]. zbool_cases.
Qed.

Lemma ReadPack_short_header_witness :
  ReadPack no_floats [8; 0; 0; 0; 67; 0]
  = Err (if (len [8; 0; 0; 0; 67; 0] =? 0) || (len [8; 0; 0; 0; 67; 0] =? 4)
         then errEOF else errUnexpectedEOF).
Proof. apply ReadPack_short_header. vm_compute. reflexivity. Defined.

(** X14: A directory size with the top bit set is a negative [int32]:
    [make([]byte, size)] panics, and [ReadPack] returns neither a reader
    nor an error. *)
Theorem ReadPack_negative_size (ParseFloat : bytes -> option float)
        (file : bytes) :
  all_bytes file = true -> 8 <= len file -> 128 <= at_index file 7 ->
  ReadPack ParseFloat file = Panic makesliceLenOutOfRange.
Proof.
  intros Hb H8 H7.
  destruct file as [|a0 [|a1 [|a2 [|a3 [|b0 [|b1 [|b2 [|b3 rest]]]]]]]];
    try (unfold len in H8; cbn [length] in H8; lia).
  repeat (apply all_bytes_cons in Hb as [? Hb]).
  change (128 <= b3) in H7.
  unfold ReadPack, ReadInt32, ReadFull.
  cbn [Z.eqb]. rewrite !Z.sub_0_r.
  destruct (Z.leb_spec (len (a0 :: a1 :: a2 :: a3 :: b0 :: b1 :: b2 :: b3 :: rest)) 0);
    [lia|].
  destruct (Z.ltb_spec (len (a0 :: a1 :: a2 :: a3 :: b0 :: b1 :: b2 :: b3 :: rest)) 4);
    [lia|].
  cbn [bind].
  destruct (Z.leb_spec (len (a0 :: a1 :: a2 :: a3 :: b0 :: b1 :: b2 :: b3 :: rest)) 4);
    [lia|].
  destruct (Z.ltb_spec (len (a0 :: a1 :: a2 :: a3 :: b0 :: b1 :: b2 :: b3 :: rest) - 4) 4);
    [lia|].
  cbn [bind].
  change (firstn (Z.to_nat 4)
            (slice_from (a0 :: a1 :: a2 :: a3 :: b0 :: b1 :: b2 :: b3 :: rest) 4))
    with [b0; b1; b2; b3].
  rewrite Uint32_sum by assumption.
  assert (Hneg : to_int32 (b0 + 256 * b1 + 65536 * b2 + 16777216 * b3) < 0).
  { unfold to_int32. rewrite Z.mod_small by lia.
    destruct (Z.ltb_spec (b0 + 256 * b1 + 65536 * b2 + 16777216 * b3)
                2147483648); lia. }
  apply Z.ltb_lt in Hneg. now rewrite Hneg.
Qed.

Lemma ReadPack_negative_size_witness :
  ReadPack no_floats [8; 0; 0; 0; 0; 0; 0; 128] = Panic makesliceLenOutOfRange.
Proof.
  apply ReadPack_negative_size; vm_compute; try reflexivity; discriminate.
Defined.

(** ** [trimZeros] *)

Lemma at_index_snoc (l : bytes) (x : Z) :
  at_index (l ++ [x]) (len (l ++ [x]) - 1) = x.
Proof.
  unfold at_index, len. rewrite length_app. cbn [length].
  replace (Z.to_nat (Z.of_nat (length l + 1) - 1)) with (length l) by lia.
  apply nth_middle.
Qed.

Lemma slice_to_snoc (l : bytes) (x : Z) :
  slice_to (l ++ [x]) (len (l ++ [x]) - 1) = l.
Proof.
  unfold slice_to, len. rewrite length_app. cbn [length].
  replace (Z.to_nat (Z.of_nat (length l + 1) - 1)) with (length l) by lia.
  rewrite firstn_app, firstn_all, Nat.sub_diag. cbn [firstn]. apply app_nil_r.
Qed.

Lemma len_snoc_pos (l : bytes) (x : Z) : (0 <? len (l ++ [x])) = true.
Proof. apply Z.ltb_lt. rewrite len_app. unfold len. cbn [length]. lia. Qed.

Lemma trim_loop_zeros (body : bytes) :
  (forall pre, body <> pre ++ [0]) ->
  forall k fuel,
    (length body + k <= fuel)%nat ->
    trim_loop fuel (body ++ repeat 0 k) = body.
Proof.
  intros Hbody. induction k as [|k IH]; intros fuel Hfuel.
  - rewrite app_nil_r. destruct fuel as [|fuel]; [reflexivity|].
    cbn [trim_loop].
    destruct body as [|b body'] using rev_ind; [reflexivity|].
    rewrite len_snoc_pos, at_index_snoc. cbn [andb].
    destruct (Z.eqb_spec b 0) as [->|]; [|reflexivity].
    now destruct (Hbody body').
  - destruct fuel as [|fuel]; [lia|].
    replace (body ++ repeat 0 (S k)) with ((body ++ repeat 0 k) ++ [0])
      by (rewrite <- app_assoc; f_equal; symmetry; apply repeat_cons).
    cbn [trim_loop].
    rewrite len_snoc_pos, at_index_snoc, slice_to_snoc. cbn [andb Z.eqb].
    apply IH. lia.
Qed.

(** X18: [trimZeros] removes the zero bytes at the end of a buffer and nothing
    else: a body that does not end in a zero byte, followed by any number
    of zero bytes, comes back as the body. *)
Theorem trimZeros_removes_trailing_zeros (body : bytes) (k : nat) :
  (forall pre, body <> pre ++ [0]) ->
  trimZeros (body ++ repeat 0 k) = body.
Proof.
  intros Hbody. unfold trimZeros. apply trim_loop_zeros; [exact Hbody|].
  rewrite length_app, repeat_length. lia.
Qed.

Lemma trimZeros_removes_trailing_zeros_witness :
  trimZeros ([7; 0; 9] ++ repeat 0 3) = [7; 0; 9].
Proof.
  apply trimZeros_removes_trailing_zeros.
  intros pre H. apply (f_equal (@rev Z)) in H.
  rewrite rev_app_distr in H. discriminate.
Defined.

Lemma trim_loop_split (fuel : nat) :
  forall buf,
    (length buf <= fuel)%nat ->
    exists k,
      buf = trim_loop fuel buf ++ repeat 0 k /\
      forall pre, trim_loop fuel buf <> pre ++ [0].
Proof.
  induction fuel as [|fuel IH]; intros buf Hlen.
  - destruct buf; [|simpl in Hlen; lia]. exists 0%nat.
    split; [reflexivity|]. intros pre H. now destruct pre.
  - cbn [trim_loop]. destruct buf as [|b body] using rev_ind.
    + exists 0%nat. split; [reflexivity|]. intros pre H. now destruct pre.
    + clear IHbody.
      rewrite len_snoc_pos, at_index_snoc, slice_to_snoc. cbn [andb].
      destruct (Z.eqb_spec b 0) as [->|Hb].
      * rewrite length_app in Hlen. cbn [length] in Hlen.
        destruct (IH body ltac:(lia)) as (k & Hk & Hnz).
        exists (S k). split; [|exact Hnz].
        rewrite Hk at 1. rewrite <- app_assoc. f_equal.
        symmetry. apply repeat_cons.
      * exists 0%nat. split; [now rewrite app_nil_r|].
        intros pre H. apply app_inj_tail in H as [_ H]. contradiction.
Qed.

(** X19: Whatever the buffer, what [trimZeros] returns is the buffer without a
    run of zero bytes at its end, it does not end in a zero byte, and
    trimming it again changes nothing. *)
Theorem trimZeros_result (buf : bytes) :
  (exists k, buf = trimZeros buf ++ repeat 0 k) /\
  (forall pre, trimZeros buf <> pre ++ [0]) /\
  trimZeros (trimZeros buf) = trimZeros buf.
Proof.
  destruct (trim_loop_split (length buf) buf (le_n _)) as (k & Hk & Hnz).
  fold (trimZeros buf) in Hk, Hnz.
  split; [now exists k|]. split; [exact Hnz|].
  unfold trimZeros at 1.
  rewrite <- (app_nil_r (trimZeros buf)) at 2.
  apply (trim_loop_zeros (trimZeros buf) Hnz 0). lia.
Qed.

(** ** [Find], continued *)

Section FindMore.

Variable unicodeToLower : bytes -> bytes.

Lemma Find_none (v : option Value) (name : bytes) :
  (forall hash e,
      v = Some (VHash hash) -> In e hash ->
      ToLower unicodeToLower (fst e) <> name) ->
  Find unicodeToLower v name = None.
Proof.
  intros Hno. destruct v as [[|hash|array|s|z|d]|]; try reflexivity.
  unfold Find, key_at, value_at.
  set (idx := Search (len hash) _).
  destruct (nth_error hash (Z.to_nat idx)) as [e|] eqn:He.
  - destruct (str_eqb name (ToLower unicodeToLower (fst e))) eqn:Ee.
    + apply str_eqb_eq in Ee. apply nth_error_In in He.
      now destruct (Hno hash e eq_refl He).
    + now rewrite andb_false_r.
  - now destruct (_ && _).
Qed.

(** X16: A missing key: when no key of the hash, lower-cased, is the name,
    [Find] returns nil, and so it does on nil and on a value that is not
    a hash. *)
Theorem Find_missing (v : option Value) (name : bytes) :
  (forall hash e,
      v = Some (VHash hash) -> In e hash ->
      ToLower unicodeToLower (fst e) <> name) ->
  Find unicodeToLower v name = None.
Proof. exact (Find_none v name). Qed.

(** X17: Of several entries with the same key [Find] returns the first: for a
    lower-case ASCII name, the value at the least index of the sorted
    hash whose key is the name. *)
Theorem Find_first_match (hash : HashEntries) (name : bytes) (p : nat)
        (val : Value) :
  key_sorted hash ->
  is_ascii name = true -> has_upper name = false ->
  nth_error hash p = Some (name, val) ->
  (forall q e, (q < p)%nat -> nth_error hash q = Some e -> fst e <> name) ->
  Find unicodeToLower (Some (VHash hash)) name = Some val.
Proof.
  intros Hs Ha Hu Hp Hfirst. unfold Find.
  set (f := fun i => negb (str_ltb (key_at hash i) name)).
  destruct (Search_spec f (len hash)) as (Hr & Hfalse & Htrue);
    [unfold len; lia|exact (key_test_monotone hash name Hs)|].
  set (idx := Search (len hash) f) in *.
  assert (Hplen : (p < length hash)%nat)
    by (apply nth_error_Some; congruence).
  assert (Hfp : f (Z.of_nat p) = true).
  { unfold f, key_at. rewrite Nat2Z.id, Hp. simpl.
    now rewrite str_ltb_irrefl. }
  assert (Hidx : idx <= Z.of_nat p).
  { destruct (Z.le_gt_cases idx (Z.of_nat p)) as [H|H]; [exact H|].
    rewrite Hfalse in Hfp by lia. discriminate. }
  assert (Hlt : idx < len hash) by (unfold len; lia).
  destruct (nth_error_in_range hash idx ltac:(lia)) as (e & He).
  destruct (key_at_nth hash idx e He) as [Hk Hv].
  assert (Heq : Z.to_nat idx = p).
  { destruct (Nat.eq_dec (Z.to_nat idx) p) as [Heq|Hne]; [exact Heq|].
    exfalso. apply (Hfirst (Z.to_nat idx) e ltac:(lia) He).
    specialize (Htrue idx ltac:(lia)). unfold f in Htrue.
    rewrite Hk in Htrue. apply negb_true_iff in Htrue.
    pose proof (sorted_nth_error key_le hash Hs (Z.to_nat idx) p e
                  (name, val) ltac:(lia) He Hp) as Hle.
    unfold key_le in Hle. simpl in Hle. now apply str_ltb_antisym. }
  rewrite Heq, Hp in He. injection He as <-. cbn [fst snd] in *.
  apply Z.ltb_lt in Hlt. rewrite Hlt, Hk, Hv. cbn [andb].
  unfold ToLower. rewrite Ha, (lower_of_lower_case name Hu).
  assert (Hrefl : str_eqb name name = true) by now apply str_eqb_eq.
  now rewrite Hrefl.
Qed.

Lemma Find_field (hash : HashEntries) (name : bytes) (val : Value) :
  key_sorted hash ->
  is_ascii name = true -> has_upper name = false ->
  has_field hash name val ->
  Find unicodeToLower (Some (VHash hash)) name = Some val.
Proof.
  intros Hs Ha Hu [Hin Huniq].
  destruct (Find_present unicodeToLower hash name val Hs Ha Hu Hin)
    as (val' & Hf & Hin').
  now rewrite Hf, (Huniq val' Hin').
Qed.

End FindMore.

Lemma Find_missing_witness :
  Find ascii_only
    (Some (VHash [(str "a", VInteger 42); (str "b", VString (str "hi"))]))
    (str "files") = None.
Proof.
  apply (Find_missing ascii_only). intros hash e Hv Hin. injection Hv as <-.
  destruct Hin as [<-|[<-|[]]]; vm_compute; discriminate.
Defined.

Lemma Find_first_match_witness :
  Find ascii_only
    (Some (VHash [(str "a", VNull); (str "b", VInteger 1);
                  (str "b", VInteger 2)]))
    (str "b") = Some (VInteger 1).
Proof.
  apply (Find_first_match ascii_only _ (str "b") 1 (VInteger 1)).
  - repeat constructor.
  - reflexivity.
  - reflexivity.
  - reflexivity.
  - intros q e Hq He. assert (q = 0%nat) as -> by lia.
    injection He as <-. discriminate.
Defined.

(** ** [handleFiles] *)

Section HandleFilesFacts.

Variable unicodeToLower : bytes -> bytes.


(** X21: Without a directory there is nothing to handle: when the root has no
    key "files", or has the field "files" and it is not an array,
    [handleFiles] returns its no-files-found error, whatever the
    callback. *)
Theorem handleFiles_no_files (St E : Type)
        (fn : bytes -> Z -> Z -> St -> St + E) (root : HashEntries) (st : St) :
  ((forall e, In e root -> ToLower unicodeToLower (fst e) <> str "files") ->
   handleFiles unicodeToLower St E fn (Some (VHash root)) st
   = inr errNoFilesFound) /\
  (forall v,
      key_sorted root -> has_field root (str "files") v ->
      Type_ v <> ArrayType ->
      handleFiles unicodeToLower St E fn (Some (VHash root)) st
      = inr errNoFilesFound).
Proof.
  split.
  - intros Hno. unfold handleFiles. rewrite Find_none; [reflexivity|].
    intros hash e Hv Hin. injection Hv as <-. now apply Hno.
  - intros v Hs Hf Ht. unfold handleFiles.
    rewrite (Find_field unicodeToLower root (str "files") v Hs
               eq_refl eq_refl Hf).
    destruct v; try reflexivity. now destruct Ht.
Qed.

Lemma handle_loop_lists (fs : list Value) (recs : list (bytes * Z * Z)) :
  Forall2 (fun f r => file_entry f (fst (fst r)) (snd (fst r)) (snd r)) fs recs ->
  forall st,
    handle_loop unicodeToLower _ _ list_entry fs st
    = inl (st ++ map (fun r => (fst (fst r), snd r)) recs).
Proof.
  induction 1 as [|f r fs recs (hash & -> & Hs & Hn & Ho & Hz) _ IH];
    intros st; [now rewrite app_nil_r|].
  cbn [handle_loop Type_]. change (HashType =? HashType) with true.
  cbn [negb].
  rewrite (Find_field unicodeToLower hash (str "filename") _ Hs
             eq_refl eq_refl Hn).
  rewrite (Find_field unicodeToLower hash (str "offset") _ Hs
             eq_refl eq_refl Ho).
  rewrite (Find_field unicodeToLower hash (str "size") _ Hs
             eq_refl eq_refl Hz).
  unfold list_entry at 1. rewrite IH. cbn [map]. now rewrite <- app_assoc.
Qed.

(** X22: The listing mode on a well-formed directory: when the root is a
    sorted hash whose field "files" is an array of file entries, each a
    sorted hash with a text "filename" and integers "offset" and "size",
    [handleFiles] with the listing callback succeeds and lists the name
    and the size of every file, in the order of the array. *)
Theorem handleFiles_lists (root : HashEntries) (fs : list Value)
        (recs : list (bytes * Z * Z)) (st : list (bytes * Z)) :
  key_sorted root ->
  has_field root (str "files") (VArray fs) ->
  Forall2 (fun f r => file_entry f (fst (fst r)) (snd (fst r)) (snd r)) fs recs ->
  handleFiles unicodeToLower _ _ list_entry (Some (VHash root)) st
  = inl (st ++ map (fun r => (fst (fst r), snd r)) recs).
Proof.
  intros Hs Hf Hfs. unfold handleFiles.
  rewrite (Find_field unicodeToLower root (str "files") _ Hs
             eq_refl eq_refl Hf).
  now apply handle_loop_lists.
Qed.

End HandleFilesFacts.

(** ** The further properties on the samples *)

Lemma sample_hash_decodes :
  readValue no_floats [57; 59; 62; 64] (fuel_for sample_hash_bytes)
    sample_hash_bytes sample_block
  = Ok (sample_hash, sample_hash_rest).
Proof. vm_compute. reflexivity. Qed.

Lemma readValue_wire_size_witness :
  len sample_hash_bytes = len sample_hash_rest + wire_size sample_hash.
Proof.
  exact (readValue_wire_size no_floats [57; 59; 62; 64] _ _ _ _ _
           sample_hash_decodes).
Defined.

Lemma readValue_type_tag_witness :
  exists tail, sample_hash_bytes = Type_ sample_hash :: tail.
Proof.
  exact (readValue_type_tag no_floats [57; 59; 62; 64] _ _ _ _ _
           sample_hash_decodes).
Defined.

Lemma readValue_deep_sorted_witness : deep_sorted sample_hash.
Proof.
  exact (readValue_deep_sorted no_floats [57; 59; 62; 64] _ _ _ _ _
           sample_hash_decodes).
Defined.

Lemma decoded_counts_witness :
  exists wire hash buf3,
    readHashEntries no_floats [57; 59; 62; 64] 8 0 2
      (slice_from sample_block 17) sample_block [] = Ok (wire, buf3) /\
    sample_hash = VHash hash /\ Permutation wire hash /\ key_sorted hash /\
    len hash = 2 /\ 0 < 2.
Proof.
  refine (proj1 (decoded_counts no_floats [57; 59; 62; 64] 8 2
                   (slice_from sample_block 13) (slice_from sample_block 17)
                   sample_block _) sample_hash sample_hash_rest _);
    vm_compute; reflexivity.
Defined.

Ltac sample_field :=
  split;
  [ simpl; tauto
  | intros v' Hin; simpl in Hin;
    repeat match goal with
           | H : _ \/ _ |- _ => destruct H as [H|H]
           | H : False |- _ => destruct H
           | H : (_, _) = (_, _) |- _ =>
               first [ discriminate H
                     | injection H as H; first [ discriminate H | now subst ] ]
           end ].

Ltac sample_entry :=
  eexists; split; [reflexivity|]; split; [repeat constructor|];
  cbn [fst snd]; split; [sample_field|]; split; sample_field.

Lemma handleFiles_no_files_witness :
  handleFiles ascii_only _ _ list_entry (Some sample_hash) []
  = inr errNoFilesFound.
Proof.
  apply (proj1 (handleFiles_no_files ascii_only _ _ list_entry _ [])).
  intros e [<-|[<-|[]]]; vm_compute; discriminate.
Defined.

Lemma handleFiles_lists_witness :
  handleFiles ascii_only _ _ list_entry (Some (VHash sample_root)) []
  = inl ([] ++ map (fun r => (fst (fst r), snd r))
                   [(str "a.txt", 100, 7); (str "b.bnut", 107, 3)]).
Proof.
  apply (handleFiles_lists ascii_only sample_root sample_files).
  - repeat constructor.
  - sample_field.
  - apply Forall2_cons; [sample_entry|].
    apply Forall2_cons; [sample_entry|]. apply Forall2_nil.
Defined.
